(** * Geano's GDSA Exchange Office: the coin normaliser and its debounce scheduler

    A shallow embedding of [DSAMoneyConverter] and of the [updateActor] hook.

    Numbers.  The purse holds JavaScript numbers that carry integers.  They
    are embedded twice.  The functions at top level compute in [Z]:
    [Math.floor (a / b)] is the floor quotient [Z.div] and the operator [%]
    is the truncating remainder [Z.rem], whose sign follows the dividend.
    The functions of [Module JS] compute as the interpreter does, in IEEE
    doubles: every product, sum and quotient is rounded to 53 significant
    bits, ties to even.  The two agree while every intermediate result is
    a safe integer ([toBaseUnit_safe], [fromBaseUnit_safe],
    [performConversion_safe]); beyond that range they part, and a property
    that depends on exact sums is stated for [JS] with that bound.  [-0] is
    identified with [0], as [===] and the comparisons do; overflow to
    [Infinity], beyond [2^1024], is not modelled.

    Objects.  A money object may lack a field; a field is an [option Z] and
    the idiom [money.gold || 0] is [orZero].

    Effects.  [performConversion] reads the actor store and the settings,
    writes through [actor.update] and talks to [ui.notifications]; it is a
    function from a world to a world and the list of effects it emitted, in
    order.  Timers are explicit: the host keeps a queue of pending timeouts,
    the class keeps its [updateTimers] table. *)

From stdpp Require Import gmap strings list.
From Stdlib Require Import ZArith Lia.

Local Open Scope Z_scope.

(** ** The money record *)

Record Money : Type := mkMoney {
  gold   : option Z;
  silver : option Z;
  copper : option Z;
  nickel : option Z
}.

(** The object literal [{ gold, silver, copper, nickel }] with all four
    fields present. *)
Definition money (g s c n : Z) : Money :=
  {| gold := Some g; silver := Some s; copper := Some c; nickel := Some n |}.

(** [x || 0] on a field that holds an integer or is absent. *)
Definition orZero (x : option Z) : Z :=
  match x with
  | Some v => v
  | None => 0
  end.

Module CONVERSION_RATES.
Definition nickel : Z := 1.
Definition copper : Z := 10.
Definition silver : Z := 100.
Definition gold   : Z := 1000.
End CONVERSION_RATES.

(** ** The normaliser *)

Definition toBaseUnit (m : Money) : Z :=
  orZero (gold m) * CONVERSION_RATES.gold +
  orZero (silver m) * CONVERSION_RATES.silver +
  orZero (copper m) * CONVERSION_RATES.copper +
  orZero (nickel m) * CONVERSION_RATES.nickel.

Definition fromBaseUnit (totalNickel : Z) : Money :=
  let remaining := totalNickel in
  let gold_ := Z.div remaining CONVERSION_RATES.gold in
  let remaining := Z.rem remaining CONVERSION_RATES.gold in
  let silver_ := Z.div remaining CONVERSION_RATES.silver in
  let remaining := Z.rem remaining CONVERSION_RATES.silver in
  let copper_ := Z.div remaining CONVERSION_RATES.copper in
  let remaining := Z.rem remaining CONVERSION_RATES.copper in
  let nickel_ := remaining in
  money gold_ silver_ copper_ nickel_.

Definition optimizeMoney (m : Money) : Money :=
  let totalNickel := toBaseUnit m in
  fromBaseUnit totalNickel.

Definition needsOptimization (m : Money) : bool :=
  let current := money (orZero (gold m)) (orZero (silver m))
                       (orZero (copper m)) (orZero (nickel m)) in
  if (orZero (nickel current) >=? 10) || (orZero (copper current) >=? 10)
     || (orZero (silver current) >=? 10) then true
  else if (orZero (nickel current) <? 0) || (orZero (copper current) <? 0)
          || (orZero (silver current) <? 0) || (orZero (gold current) <? 0)
  then true
  else false.

(** The strict comparison [a !== b] of two fields: an absent field differs
    from every number. *)
Definition strictNe (a b : option Z) : bool :=
  match a, b with
  | Some x, Some y => negb (x =? y)
  | None, None => false
  | _, _ => true
  end.

(** ** The host: actors, settings, notifications, timeouts *)

Record Actor : Type := mkActor {
  actor_name  : string;
  actor_type  : string;
  actor_money : Money          (* actor.system.money *)
}.

(** The options object handed to [actor.update] and passed on to the
    [updateActor] hook; the key may be absent. *)
Record UpdateOptions : Type := mkOptions {
  gdsa_autoconvert : option bool
}.

Definition truthy (x : option bool) : bool :=
  match x with
  | Some b => b
  | None => false
  end.

Inductive Message : Type :=
| InsufficientFunds
| OptimizedNotification (name : string) (g s c n : option Z)
| AlreadyOptimized.

Inductive Effect : Type :=
| Warn (msg : Message)                                   (* ui.notifications.warn *)
| Info (msg : Message)                                   (* ui.notifications.info *)
| Update (actorId : string) (data : Money) (options : UpdateOptions).
                                                         (* actor.update *)

(** A timeout the host has accepted and that has neither fired nor been
    cleared; its callback is [performConversion target]. *)
Record Timer : Type := mkTimer {
  handle : nat;
  due    : nat;
  target : string
}.

Record World : Type := mkWorld {
  actors            : gmap string Actor;   (* game.actors *)
  showNotifications : bool;                (* the module's setting *)
  systemId          : string;              (* game.system.id *)
  updateTimers      : gmap string nat;     (* DSAMoneyConverter.updateTimers *)
  pending           : list Timer;          (* the host's timeout queue *)
  nextHandle        : nat;
  now               : nat
}.

Definition set_actors (f : gmap string Actor -> gmap string Actor) (w : World) : World :=
  mkWorld (f (actors w)) (showNotifications w) (systemId w) (updateTimers w)
          (pending w) (nextHandle w) (now w).

Definition set_updateTimers (f : gmap string nat -> gmap string nat) (w : World) : World :=
  mkWorld (actors w) (showNotifications w) (systemId w) (f (updateTimers w))
          (pending w) (nextHandle w) (now w).

Definition set_pending (f : list Timer -> list Timer) (w : World) : World :=
  mkWorld (actors w) (showNotifications w) (systemId w) (updateTimers w)
          (f (pending w)) (nextHandle w) (now w).

(** A world in which nothing has been scheduled yet. *)
Definition initWorld (acts : gmap string Actor) (show : bool) (sys : string) : World :=
  mkWorld acts show sys ∅ [] 0%nat 0%nat.

(** *** A small monad: world passing with a log of effects *)

Definition M (A : Type) : Type := World -> A * World * list Effect.

Definition ret {A} (x : A) : M A := fun w => (x, w, []).

Definition bind {A B} (m : M A) (k : A -> M B) : M B :=
  fun w =>
    let '(x, w1, fx1) := m w in
    let '(y, w2, fx2) := k x w1 in
    (y, w2, fx1 ++ fx2).

#[global] Instance M_ret : MRet M := @ret.
#[global] Instance M_bind : MBind M := fun A B k m => bind m k.

Definition gets {A} (f : World -> A) : M A := fun w => (f w, w, []).
Definition modify (f : World -> World) : M unit := fun w => (tt, f w, []).
Definition emit (e : Effect) : M unit := fun w => (tt, w, [e]).
Definition when (b : bool) (m : M unit) : M unit := if b then m else ret tt.

Definition result {A} (r : A * World * list Effect) : A := r.1.1.
Definition world_of {A} (r : A * World * list Effect) : World := r.1.2.
Definition effects_of {A} (r : A * World * list Effect) : list Effect := r.2.

(** [actor.update({"system.money": data}, options)]: the four coin fields
    of the stored record are replaced and the call is logged. *)
Definition write_money (data : Money) (a : Actor) : Actor :=
  mkActor (actor_name a) (actor_type a) data.

Definition actor_update (actorId : string) (data : Money) (options : UpdateOptions) : M unit :=
  modify (set_actors (alter (write_money data) actorId));;
  emit (Update actorId data options).

(** [setTimeout(() => performConversion(actorId), delay)] *)
Definition setTimeout (actorId : string) (delay : nat) : M nat :=
  fun w =>
    let h := nextHandle w in
    (h,
     mkWorld (actors w) (showNotifications w) (systemId w) (updateTimers w)
             (pending w ++ [mkTimer h (now w + delay)%nat actorId])
             (S h) (now w),
     []).

Definition keep_other (h : nat) (t : Timer) : bool := negb (handle t =? h)%nat.

Definition clearTimeout (h : nat) : M unit :=
  modify (set_pending (List.filter (keep_other h))).

(** ** The coalescer *)

Definition tagged : UpdateOptions := mkOptions (Some true).

Definition zeroMoney : Money := money 0 0 0 0.

Definition scheduleConversion (actorId : string) : M unit :=
  tbl ← gets updateTimers;
  match tbl !! actorId with
  | Some old => clearTimeout old
  | None => ret tt
  end;;
  timer ← setTimeout actorId 100;
  modify (set_updateTimers (insert actorId timer)).

Definition performConversion (actorId : string) (manual : bool) : M unit :=
  modify (set_updateTimers (delete actorId));;
  acts ← gets actors;
  match acts !! actorId with
  | None => ret tt
  | Some actor =>
    let currentMoney := actor_money actor in
    if negb manual && negb (needsOptimization currentMoney) then ret tt
    else
      let optimized := optimizeMoney currentMoney in
      let total := toBaseUnit optimized in
      if total <? 0 then
        show ← gets showNotifications;
        when (show || manual) (emit (Warn InsufficientFunds));;
        actor_update actorId zeroMoney tagged
      else if manual
              || strictNe (gold optimized) (gold currentMoney)
              || strictNe (silver optimized) (silver currentMoney)
              || strictNe (copper optimized) (copper currentMoney)
              || strictNe (nickel optimized) (nickel currentMoney)
      then
        actor_update actorId optimized tagged;;
        show ← gets showNotifications;
        when (show || manual)
          (emit (Info (OptimizedNotification (actor_name actor)
                         (gold optimized) (silver optimized)
                         (copper optimized) (nickel optimized))))
      else if manual then emit (Info AlreadyOptimized)
      else ret tt
  end.

(** [promptManualExchange] once the dialog has been answered. *)
Definition promptManualExchange (actorId : string) (confirmed : bool) : M unit :=
  if confirmed then performConversion actorId true else ret tt.

(** ** The [updateActor] hook and the event loop *)

(** What the host hands to the hook: the actor, whether the change touches
    [system.money], and the options of the write that caused it. *)
Record Notification : Type := mkNotification {
  n_actorId   : string;
  n_actorType : string;
  n_hasMoney  : bool;          (* foundry.utils.hasProperty(updateData, "system.money") *)
  n_options   : UpdateOptions
}.

Definition string_ne (a b : string) : bool := negb (String.eqb a b).

Definition onUpdateActor (n : Notification) : M unit :=
  if truthy (gdsa_autoconvert (n_options n)) then ret tt
  else
    sys ← gets systemId;
    if string_ne (n_actorType n) "PlayerCharakter" || string_ne sys "gdsa" then ret tt
    else if negb (n_hasMoney n) then ret tt
    else scheduleConversion (n_actorId n).

(** A pending timeout fires once its delay has elapsed: the host drops it
    from its queue and runs the callback.  A handle that is not pending, or
    not yet due, does nothing. *)
Definition fire (h : nat) : M unit :=
  q ← gets pending;
  t_now ← gets now;
  match List.find (fun t => (handle t =? h)%nat) q with
  | Some t =>
    if (due t <=? t_now)%nat then
      modify (set_pending (List.filter (keep_other h)));;
      performConversion (target t) false
    else ret tt
  | None => ret tt
  end.

Definition elapse (d : nat) : M unit :=
  modify (fun w => mkWorld (actors w) (showNotifications w) (systemId w)
                           (updateTimers w) (pending w) (nextHandle w)
                           (now w + d)%nat).

Inductive Event : Type :=
| Notify (n : Notification)          (* the host calls the hook *)
| Schedule (actorId : string)        (* scheduleConversion called directly *)
| Fire (h : nat)                     (* a timeout comes due *)
| Elapse (d : nat)                   (* time passes *)
| Manual (actorId : string)          (* the header button, confirmed *)
| Edit (actorId : string) (data : Money).
                                     (* someone else writes the purse *)

Definition step (e : Event) : M unit :=
  match e with
  | Notify n => onUpdateActor n
  | Schedule a => scheduleConversion a
  | Fire h => fire h
  | Elapse d => elapse d
  | Manual a => promptManualExchange a true
  | Edit a data => modify (set_actors (alter (write_money data) a))
  end.

Fixpoint run (evs : list Event) : M unit :=
  match evs with
  | [] => ret tt
  | e :: rest => step e;; run rest
  end.

Definition is_manual (e : Event) : bool :=
  match e with
  | Manual _ => true
  | _ => false
  end.

(** The timeouts of the host queue whose callback targets [a] ... *)
Definition outstanding (a : string) (w : World) : list Timer :=
  List.filter (fun t => String.eqb (target t) a) (pending w).

(** ... and those among them that the table [updateTimers] holds for [a]. *)
Definition registered (a : string) (w : World) : list Timer :=
  match updateTimers w !! a with
  | Some h => List.filter (fun t => (handle t =? h)%nat) (outstanding a w)
  | None => []
  end.

Definition handles (l : list Timer) : list nat := List.map handle l.

(** The scheduler's invariant: the host never hands out a handle twice,
    and whatever the table holds for an actor is a pending timeout whose
    callback targets that actor. *)
Record wf (w : World) : Prop := mkWf {
  wf_nodup : NoDup (handles (pending w));
  wf_fresh : forall t, t ∈ pending w -> (handle t < nextHandle w)%nat;
  wf_table : forall a h, updateTimers w !! a = Some h ->
             exists t, t ∈ pending w /\ handle t = h /\ target t = a
}.

(** While only the scheduler and the timeouts themselves touch the table,
    the converse holds too: every pending timeout is in the table. *)
Definition tight (w : World) : Prop :=
  forall t, t ∈ pending w -> updateTimers w !! target t = Some (handle t).

(** The queue that [scheduleConversion] leaves before it adds the new
    timeout: the old queue without the timeout the table held. *)
Definition cleared (a : string) (w : World) : list Timer :=
  match updateTimers w !! a with
  | Some old => List.filter (keep_other old) (pending w)
  | None => pending w
  end.

(** ** Readings of a result *)

(** The purse the store holds for an actor. *)
Definition stored (a : string) (w : World) : option Money :=
  match actors w !! a with
  | Some actor => Some (actor_money actor)
  | None => None
  end.

Definition is_update (e : Effect) : bool :=
  match e with
  | Update _ _ _ => true
  | _ => false
  end.

(** The calls of [actor.update] in a log, in order. *)
Definition writes (fx : list Effect) : list Effect := List.filter is_update fx.

(** The test that guards the ordinary write, without its [manual] disjunct. *)
Definition differs (optimized currentMoney : Money) : bool :=
  strictNe (gold optimized) (gold currentMoney)
  || strictNe (silver optimized) (silver currentMoney)
  || strictNe (copper optimized) (copper currentMoney)
  || strictNe (nickel optimized) (nickel currentMoney).

(** ** The earlier script, [scripts/auto-money-converter.js]

    Its normaliser and its scheduler are the ones above; its apply-step has
    no [manual] parameter. *)
Module Script.

Definition performConversion (actorId : string) : M unit :=
  modify (set_updateTimers (delete actorId));;
  acts ← gets actors;
  match acts !! actorId with
  | None => ret tt
  | Some actor =>
    let currentMoney := actor_money actor in
    if negb (needsOptimization currentMoney) then ret tt
    else
      let optimized := optimizeMoney currentMoney in
      let total := toBaseUnit optimized in
      if total <? 0 then
        show ← gets showNotifications;
        when show (emit (Warn InsufficientFunds));;
        actor_update actorId zeroMoney tagged
      else if strictNe (gold optimized) (gold currentMoney)
              || strictNe (silver optimized) (silver currentMoney)
              || strictNe (copper optimized) (copper currentMoney)
              || strictNe (nickel optimized) (nickel currentMoney)
      then
        actor_update actorId optimized tagged;;
        show ← gets showNotifications;
        when show
          (emit (Info (OptimizedNotification (actor_name actor)
                         (gold optimized) (silver optimized)
                         (copper optimized) (nickel optimized))))
      else ret tt
  end.

End Script.

(** ** Start-up: the settings and the welcome message

    [game.settings] keeps, per session, the registered keys with their
    defaults and, across sessions, the values that were set.  Reading or
    setting a key that is not registered throws; a throw is [None]. *)

Definition ID : string := "geanos-gdsa-exchange-office".

Record Settings : Type := mkSettings {
  defaults : gmap (string * string) bool;   (* registered this session *)
  values   : gmap (string * string) bool    (* persisted *)
}.

Inductive StartupEffect : Type :=
| ConsoleLog (text : string)
| WelcomeInfo (text : string).

Definition settings_register (key : string * string) (d : bool) (s : Settings) : Settings :=
  mkSettings (<[key := d]> (defaults s)) (values s).

Definition settings_get (key : string * string) (s : Settings) : option bool :=
  match defaults s !! key with
  | Some d =>
    match values s !! key with
    | Some v => Some v
    | None => Some d
    end
  | None => None
  end.

Definition settings_set (key : string * string) (v : bool) (s : Settings) : option Settings :=
  match defaults s !! key with
  | Some _ => Some (mkSettings (defaults s) (<[key := v]> (values s)))
  | None => None
  end.

Definition welcomeText : string :=
  "Geano's GDSA Exchange Office aktiviert! Münzen werden jetzt automatisch umgerechnet.".

(** [Hooks.once("init", ...)] *)
Definition onInit (s : Settings) : Settings * list StartupEffect :=
  (settings_register (ID, "welcomeShown") false
     (settings_register (ID, "showNotifications") true s),
   [ConsoleLog "Geano's GDSA Exchange Office | Initializing"]).

(** [Hooks.once("ready", ...)] *)
Definition onReady (isGM : bool) (s : Settings) : option (Settings * list StartupEffect) :=
  if isGM then
    match settings_get (ID, "welcomeShown") s with
    | Some shown =>
      if negb shown then
        match settings_set (ID, "welcomeShown") true s with
        | Some s' => Some (s', [WelcomeInfo welcomeText])
        | None => None
        end
      else Some (s, [])
    | None => None
    end
  else Some (s, []).

(** One session of the module: nothing is registered when it starts, the
    persisted values are those the last session left. *)
Definition session (isGM : bool) (persisted : gmap (string * string) bool)
  : option (Settings * list StartupEffect) :=
  let '(s, fx) := onInit (mkSettings ∅ persisted) in
  match onReady isGM s with
  | Some (s', fx') => Some (s', fx ++ fx')
  | None => None
  end.

Definition welcomed (fx : list StartupEffect) : bool :=
  existsb (fun e => match e with WelcomeInfo _ => true | _ => false end) fx.

(** ** The arithmetic of the interpreter

    A number that carries an integer is a [Z]; an operation returns the
    nearest double to the exact result, ties to the even mantissa. *)
Module JS.

(** The integer nearest to [num / den], ties to even ([num >= 0], [den > 0]). *)
Definition round_half_even (num den : Z) : Z :=
  let f := num / den in
  let r2 := 2 * (num mod den) in
  if r2 <? den then f
  else if den <? r2 then f + 1
  else if Z.even f then f else f + 1.

(** The double nearest to the integer [x]: [x] itself up to [2^53], beyond
    that a 53-bit mantissa times a power of two. *)
Definition round53 (x : Z) : Z :=
  let a := Z.abs x in
  if a <=? 2 ^ 53 then x
  else
    let e := Z.log2 a - 52 in
    Z.sgn x * (round_half_even a (2 ^ e) * 2 ^ e).

(** [a * b] and [a + b] *)
Definition mul (a b : Z) : Z := round53 (a * b).
Definition add (a b : Z) : Z := round53 (a + b).

(** The binary exponent of [n / b], that is [floor (log2 (n / b))], for
    positive [n] and [b]. *)
Definition log2_ratio (n b : Z) : Z :=
  let d := Z.log2 n - Z.log2 b in
  if (if 0 <=? d then b * 2 ^ d <=? n else b <=? n * 2 ^ (- d)) then d else d - 1.

(** [Math.floor (a / b)] for positive [b]: the quotient is rounded to a
    mantissa of 53 bits at exponent [e], then floored. *)
Definition floor_div (a b : Z) : Z :=
  if a =? 0 then 0
  else
    let n := Z.abs a in
    let e := log2_ratio n b - 52 in
    if 0 <=? e then Z.sgn a * (round_half_even n (b * 2 ^ e) * 2 ^ e)
    else (Z.sgn a * round_half_even (n * 2 ^ (- e)) b) / 2 ^ (- e).

Definition toBaseUnit (m : Money) : Z :=
  add (add (add (mul (orZero (gold m)) CONVERSION_RATES.gold)
                (mul (orZero (silver m)) CONVERSION_RATES.silver))
           (mul (orZero (copper m)) CONVERSION_RATES.copper))
      (mul (orZero (nickel m)) CONVERSION_RATES.nickel).

(** The operator [%] is exact on doubles. *)
Definition fromBaseUnit (totalNickel : Z) : Money :=
  let remaining := totalNickel in
  let gold_ := floor_div remaining CONVERSION_RATES.gold in
  let remaining := Z.rem remaining CONVERSION_RATES.gold in
  let silver_ := floor_div remaining CONVERSION_RATES.silver in
  let remaining := Z.rem remaining CONVERSION_RATES.silver in
  let copper_ := floor_div remaining CONVERSION_RATES.copper in
  let remaining := Z.rem remaining CONVERSION_RATES.copper in
  let nickel_ := remaining in
  money gold_ silver_ copper_ nickel_.

Definition optimizeMoney (m : Money) : Money :=
  let totalNickel := toBaseUnit m in
  fromBaseUnit totalNickel.

(** [needsOptimization] only compares, and comparisons are exact: it is the
    function of the top level.  The apply-step is the one above with the
    interpreter's [optimizeMoney] and [toBaseUnit]. *)
Definition performConversion (actorId : string) (manual : bool) : M unit :=
  modify (set_updateTimers (delete actorId));;
  acts ← gets actors;
  match acts !! actorId with
  | None => ret tt
  | Some actor =>
    let currentMoney := actor_money actor in
    if negb manual && negb (needsOptimization currentMoney) then ret tt
    else
      let optimized := optimizeMoney currentMoney in
      let total := toBaseUnit optimized in
      if total <? 0 then
        show ← gets showNotifications;
        when (show || manual) (emit (Warn InsufficientFunds));;
        actor_update actorId zeroMoney tagged
      else if manual
              || strictNe (gold optimized) (gold currentMoney)
              || strictNe (silver optimized) (silver currentMoney)
              || strictNe (copper optimized) (copper currentMoney)
              || strictNe (nickel optimized) (nickel currentMoney)
      then
        actor_update actorId optimized tagged;;
        show ← gets showNotifications;
        when (show || manual)
          (emit (Info (OptimizedNotification (actor_name actor)
                         (gold optimized) (silver optimized)
                         (copper optimized) (nickel optimized))))
      else if manual then emit (Info AlreadyOptimized)
      else ret tt
  end.

(** A purse all of whose intermediate results in [toBaseUnit] are safe
    integers: the magnitudes of its four terms add up to at most
    [Number.MAX_SAFE_INTEGER = 2^53 - 1]. *)
Definition safe (m : Money) : Prop :=
  Z.abs (orZero (gold m)) * 1000 + Z.abs (orZero (silver m)) * 100
  + Z.abs (orZero (copper m)) * 10 + Z.abs (orZero (nickel m)) < 2 ^ 53.

End JS.

(** The apply-step with its two arithmetic functions as parameters: the
    common shape of [performConversion] and [JS.performConversion], used to
    compare them. *)
Definition performConversionWith (optimize : Money -> Money) (total_of : Money -> Z)
    (actorId : string) (manual : bool) : M unit :=
  modify (set_updateTimers (delete actorId));;
  acts ← gets actors;
  match acts !! actorId with
  | None => ret tt
  | Some actor =>
    let currentMoney := actor_money actor in
    if negb manual && negb (needsOptimization currentMoney) then ret tt
    else
      let optimized := optimize currentMoney in
      let total := total_of optimized in
      if total <? 0 then
        show ← gets showNotifications;
        when (show || manual) (emit (Warn InsufficientFunds));;
        actor_update actorId zeroMoney tagged
      else if manual
              || strictNe (gold optimized) (gold currentMoney)
              || strictNe (silver optimized) (silver currentMoney)
              || strictNe (copper optimized) (copper currentMoney)
              || strictNe (nickel optimized) (nickel currentMoney)
      then
        actor_update actorId optimized tagged;;
        show ← gets showNotifications;
        when (show || manual)
          (emit (Info (OptimizedNotification (actor_name actor)
                         (gold optimized) (silver optimized)
                         (copper optimized) (nickel optimized))))
      else if manual then emit (Info AlreadyOptimized)
      else ret tt
  end.

(** * Properties *)

(** ** Scenarios of the normaliser *)

Example scenario_A : optimizeMoney (money 0 0 0 23) = money 0 0 2 3.
Proof. reflexivity. Qed.

Example scenario_B : optimizeMoney (money 1 12 0 0) = money 2 2 0 0.
Proof. reflexivity. Qed.

Example needs_nickel10 : needsOptimization (money 0 0 0 10) = true.
Proof. reflexivity. Qed.

Example needs_gold1 : needsOptimization (money 1 0 0 0) = false.
Proof. reflexivity. Qed.

Example needs_copper_neg : needsOptimization (money 0 0 (-1) 0) = true.
Proof. reflexivity. Qed.

(** ** Arithmetic of the decomposition *)

Section Decomposition.

Lemma toBaseUnit_money g s c k :
  toBaseUnit (money g s c k) = g * 1000 + s * 100 + c * 10 + k.
Proof.
  unfold toBaseUnit, CONVERSION_RATES.gold, CONVERSION_RATES.silver,
    CONVERSION_RATES.copper, CONVERSION_RATES.nickel; simpl. lia.
Qed.

Lemma fromBaseUnit_unfold n :
  fromBaseUnit n =
  money (n / 1000)
        (Z.rem n 1000 / 100)
        (Z.rem (Z.rem n 1000) 100 / 10)
        (Z.rem (Z.rem (Z.rem n 1000) 100) 10).
Proof. reflexivity. Qed.

(** On a non-negative total the truncating remainder is the floor
    remainder, and the digits come out as in positional notation. *)
Lemma fromBaseUnit_nonneg n :
  0 <= n ->
  fromBaseUnit n =
  money (n / 1000) ((n mod 1000) / 100) ((n mod 100) / 10) (n mod 10).
Proof.
  intros Hn. rewrite fromBaseUnit_unfold.
  rewrite !Z.rem_mod_nonneg by (try lia; apply Z.mod_pos_bound; lia).
  replace ((n mod 1000) mod 100) with (n mod 100)
    by (Z.to_euclidean_division_equations; lia).
  replace ((n mod 100) mod 10) with (n mod 10)
    by (Z.to_euclidean_division_equations; lia).
  reflexivity.
Qed.

Lemma roundtrip_nonneg n : 0 <= n -> toBaseUnit (fromBaseUnit n) = n.
Proof.
  intros Hn. rewrite fromBaseUnit_nonneg by assumption.
  rewrite toBaseUnit_money. Z.to_euclidean_division_equations; lia.
Qed.

(** Below zero the floor quotient and the truncating remainder disagree:
    every digit is at most zero, and the encoded value undershoots. *)
Lemma roundtrip_negative n : n < 0 -> toBaseUnit (fromBaseUnit n) <= n.
Proof.
  intros Hn. rewrite fromBaseUnit_unfold, toBaseUnit_money.
  Z.to_euclidean_division_equations; lia.
Qed.

Lemma roundtrip_negative_strict n :
  n < 0 -> Z.rem n 1000 <> 0 -> toBaseUnit (fromBaseUnit n) < n.
Proof.
  intros Hn Hr. rewrite fromBaseUnit_unfold, toBaseUnit_money.
  Z.to_euclidean_division_equations; lia.
Qed.

Lemma roundtrip_sign n : toBaseUnit (fromBaseUnit n) < 0 <-> n < 0.
Proof.
  split; intros H.
  - destruct (Z.lt_ge_cases n 0) as [|Hge]; [assumption|].
    rewrite roundtrip_nonneg in H; lia.
  - pose proof (roundtrip_negative n H). lia.
Qed.

End Decomposition.

(** ** The normaliser on negative totals *)

Lemma fromBaseUnit_negative_digits n :
  n < 0 ->
  exists g s c k,
    fromBaseUnit n = money g s c k /\ g < 0 /\ s <= 0 /\ c <= 0 /\ k <= 0.
Proof.
  intros Hn. rewrite fromBaseUnit_unfold.
  eexists _, _, _, _. split; [reflexivity|].
  Z.to_euclidean_division_equations; lia.
Qed.

(** C1, at the input [-5]: [fromBaseUnit] pairs the floor quotient with the
    truncating remainder, so the record it returns for [-5] is worth [-1115]
    base units and the round trip through [toBaseUnit] does not give [-5]
    back.  (On totals [n >= 0] the round trip is the identity,
    [roundtrip_nonneg]; below zero it undershoots whenever [n] is not a
    multiple of 1000, [roundtrip_negative_strict].) *)
Theorem roundtrip_at_minus5 :
  toBaseUnit (fromBaseUnit (-5)) = -1115 /\
  toBaseUnit (fromBaseUnit (-5)) <> -5.
Proof. split; [reflexivity | discriminate]. Qed.

(** C2, at the input [-5]: the decomposition of a negative total has
    negative nickel, copper and silver fields; here every small coin is
    negative and the four fields do not add up to the total. *)
Theorem fromBaseUnit_at_minus5 :
  fromBaseUnit (-5) = money (-1) (-1) (-1) (-5) /\
  (-1) * 1000 + (-1) * 100 + (-1) * 10 + (-5) <> -5.
Proof. split; [reflexivity | discriminate]. Qed.

(** ** The normaliser on non-negative totals *)

(** C5: on a non-negative total every field of the result is present, the
    nickel, copper and silver fields are digits and gold is not negative. *)
Theorem fromBaseUnit_canonical_range n :
  0 <= n ->
  exists g s c k,
    fromBaseUnit n = money g s c k /\
    0 <= k <= 9 /\ 0 <= c <= 9 /\ 0 <= s <= 9 /\ 0 <= g.
Proof.
  intros Hn. rewrite fromBaseUnit_nonneg by assumption.
  eexists _, _, _, _. split; [reflexivity|].
  Z.to_euclidean_division_equations; lia.
Qed.

Lemma fromBaseUnit_canonical_range_witness :
  0 <= 1234 /\
  exists g s c k,
    fromBaseUnit 1234 = money g s c k /\
    0 <= k <= 9 /\ 0 <= c <= 9 /\ 0 <= s <= 9 /\ 0 <= g.
Proof. split; [lia | apply (fromBaseUnit_canonical_range 1234); lia]. Defined.

(** In exact arithmetic, on a record whose base-unit total is not
    negative, optimising twice gives what optimising once gives. *)
Lemma optimizeMoney_idempotent m :
  0 <= toBaseUnit m ->
  optimizeMoney (optimizeMoney m) = optimizeMoney m.
Proof.
  intros Hm. unfold optimizeMoney.
  rewrite roundtrip_nonneg by assumption. reflexivity.
Qed.

(** Idempotence is a matter of the sign: below zero it fails, here at a
    total of [-5]. *)
Example optimizeMoney_not_idempotent_below_zero :
  optimizeMoney (optimizeMoney (money 0 0 0 (-5))) <> optimizeMoney (money 0 0 0 (-5)).
Proof. vm_compute. discriminate. Qed.

(** C7: [needsOptimization] answers [true] exactly when one of nickel,
    copper, silver is at least 10 or one of the four fields is negative,
    an absent field counting as 0.  It is a function of the record alone:
    it neither reads nor changes the world. *)
Theorem needsOptimization_spec m :
  needsOptimization m = true <->
  (10 <= orZero (nickel m) \/ 10 <= orZero (copper m) \/ 10 <= orZero (silver m)) \/
  (orZero (nickel m) < 0 \/ orZero (copper m) < 0 \/
   orZero (silver m) < 0 \/ orZero (gold m) < 0).
Proof.
  unfold needsOptimization; simpl.
  rewrite !Z.geb_leb.
  destruct (Z.leb_spec 10 (orZero (nickel m))),
           (Z.leb_spec 10 (orZero (copper m))),
           (Z.leb_spec 10 (orZero (silver m))),
           (Z.ltb_spec (orZero (nickel m)) 0),
           (Z.ltb_spec (orZero (copper m)) 0),
           (Z.ltb_spec (orZero (silver m)) 0),
           (Z.ltb_spec (orZero (gold m)) 0);
    simpl; split; intros; try reflexivity; try discriminate; lia.
Qed.

Lemma needsOptimization_false m :
  needsOptimization m = false ->
  0 <= orZero (nickel m) <= 9 /\ 0 <= orZero (copper m) <= 9 /\
  0 <= orZero (silver m) <= 9 /\ 0 <= orZero (gold m).
Proof.
  intros H.
  assert (Hn : ~ (needsOptimization m = true)) by (rewrite H; discriminate).
  rewrite needsOptimization_spec in Hn. lia.
Qed.

(** In exact arithmetic, a record with all four fields present that does
    not need optimising is left as it is by [optimizeMoney]. *)
Lemma optimizeMoney_fixpoint g s c k :
  needsOptimization (money g s c k) = false ->
  optimizeMoney (money g s c k) = money g s c k.
Proof.
  intros H. apply needsOptimization_false in H. simpl in H.
  unfold optimizeMoney. rewrite toBaseUnit_money.
  rewrite fromBaseUnit_nonneg by lia.
  unfold money. f_equal; f_equal; Z.to_euclidean_division_equations; lia.
Qed.

(** With a field absent the record is not a fixed point although the value
    is kept: the result has every field present. *)
Example optimizeMoney_fills_absent_fields :
  let m := mkMoney (Some 1) None None None in
  needsOptimization m = false /\ optimizeMoney m = money 1 0 0 0 /\ optimizeMoney m <> m.
Proof. repeat split. discriminate. Qed.

(** ** The apply-step *)

#[local] Arguments strictNe : simpl never.
#[local] Arguments optimizeMoney : simpl never.
#[local] Arguments toBaseUnit : simpl never.
#[local] Arguments needsOptimization : simpl never.

(** Membership of an effect in a log that has been computed. *)
Ltac in_log H :=
  simpl in H;
  repeat (apply elem_of_cons in H; destruct H as [H|H];
          [try discriminate H; try (injection H as -> -> ->; auto) |]);
  try (apply elem_of_nil in H; contradiction).

Ltac unfold_M :=
  unfold promptManualExchange, performConversion, scheduleConversion,
    actor_update, clearTimeout, setTimeout, when, emit, modify, gets,
    mbind, M_bind, bind, mret, M_ret, ret,
    effects_of, world_of, result,
    set_actors, set_updateTimers, set_pending in *.

Lemma negative_total_needs_optimization m :
  toBaseUnit (optimizeMoney m) < 0 -> needsOptimization m = true.
Proof.
  unfold optimizeMoney. rewrite roundtrip_sign. intros Hneg.
  apply needsOptimization_spec. right.
  unfold toBaseUnit, CONVERSION_RATES.gold, CONVERSION_RATES.silver,
    CONVERSION_RATES.copper, CONVERSION_RATES.nickel in Hneg.
  lia.
Qed.



(** Scenario C: a purse of minus five nickels is reset and a warning shown. *)
Example scenario_C :
  let w := initWorld {[ "a1" := mkActor "Alrik" "PlayerCharakter" (money 0 0 0 (-5)) ]}
                     true "gdsa" in
  effects_of (performConversion "a1" false w)
    = [Warn InsufficientFunds; Update "a1" (money 0 0 0 0) tagged].
Proof. reflexivity. Qed.

(** When the total is not negative a manual run always writes. *)
Lemma performConversion_manual_nonneg w a actor :
  actors w !! a = Some actor ->
  0 <= toBaseUnit (optimizeMoney (actor_money actor)) ->
  effects_of (performConversion a true w) =
    let optimized := optimizeMoney (actor_money actor) in
    [Update a optimized tagged;
     Info (OptimizedNotification (actor_name actor) (gold optimized) (silver optimized)
             (copper optimized) (nickel optimized))].
Proof.
  intros Hact Hpos. apply Z.ltb_ge in Hpos.
  destruct w as [acts show sys tbl q nh t]; simpl in *.
  unfold_M; simpl. rewrite Hact; simpl. rewrite Hpos; simpl.
  rewrite orb_true_r. reflexivity.
Qed.

(** The branch that reports [AlreadyOptimized] is guarded by [manual] after
    a test that [manual] alone satisfies: no run reaches it. *)
Lemma AlreadyOptimized_never_emitted w a manual :
  Info AlreadyOptimized ∉ effects_of (performConversion a manual w).
Proof.
  destruct w as [acts show sys tbl q nh t].
  intros Hin. unfold_M; simpl in Hin.
  destruct (acts !! a) as [actor|]; simpl in Hin; [|in_log Hin].
  destruct manual; simpl in Hin.
  - destruct (_ <? 0); simpl in Hin;
      rewrite ?orb_true_r in Hin; in_log Hin.
  - destruct (needsOptimization _); simpl in Hin; [|in_log Hin].
    destruct (_ <? 0); simpl in Hin.
    + destruct show; in_log Hin.
    + destruct (strictNe _ _ || _ || _ || _); simpl in Hin; [|in_log Hin].
      destruct show; in_log Hin.
Qed.

(** C3, at a purse of one gold coin: the record is canonical and equal to
    its optimised form, yet the manual apply-step calls [actor.update] and
    reports [OptimizedNotification]; the [AlreadyOptimized] message is not
    in the log. *)
Theorem manual_on_canonical_record :
  let w := initWorld {[ "a1" := mkActor "Alrik" "PlayerCharakter" (money 1 0 0 0) ]}
                     false "gdsa" in
  needsOptimization (money 1 0 0 0) = false /\
  optimizeMoney (money 1 0 0 0) = money 1 0 0 0 /\
  effects_of (performConversion "a1" true w)
    = [Update "a1" (money 1 0 0 0) tagged;
       Info (OptimizedNotification "Alrik" (Some 1) (Some 0) (Some 0) (Some 0))].
Proof. repeat split. Qed.

(** Every write of the apply-step goes to the actor it was called for and
    carries the marker. *)
Lemma performConversion_writes_tagged w a manual a' data options :
  Update a' data options ∈ effects_of (performConversion a manual w) ->
  a' = a /\ options = tagged.
Proof.
  destruct w as [acts show sys tbl q nh t].
  intros Hin. unfold_M; simpl in Hin.
  destruct (acts !! a) as [actor|]; simpl in Hin; [|in_log Hin].
  destruct (negb manual && negb (needsOptimization _)); simpl in Hin; [in_log Hin|].
  destruct (_ <? 0); simpl in Hin.
  - destruct (show || manual); in_log Hin.
  - destruct (manual || _ || _ || _ || _); simpl in Hin.
    + destruct (show || manual); in_log Hin.
    + destruct manual; in_log Hin.
Qed.

(** ** The host's timeout queue *)

Section Queue.

Implicit Types (l : list Timer) (t : Timer) (h : nat).

Lemma elem_of_filter_bool (p : Timer -> bool) l t :
  t ∈ List.filter p l <-> t ∈ l /\ p t = true.
Proof. rewrite !list_elem_of_In. apply filter_In. Qed.

Lemma elem_of_handles l h :
  h ∈ handles l <-> exists t, t ∈ l /\ handle t = h.
Proof.
  unfold handles. rewrite list_elem_of_In, in_map_iff.
  split; intros (t & H1 & H2); exists t.
  - rewrite list_elem_of_In. auto.
  - rewrite list_elem_of_In in H1. auto.
Qed.

Lemma NoDup_handles_filter (p : Timer -> bool) l :
  NoDup (handles l) -> NoDup (handles (List.filter p l)).
Proof.
  induction l as [|t l IH]; simpl; intros Hnd; [assumption|].
  apply NoDup_cons in Hnd as [Hnotin Hnd].
  destruct (p t); simpl; [|auto].
  apply NoDup_cons. split; [|auto].
  intros Hin. apply Hnotin.
  apply elem_of_handles in Hin as (t' & Hin & Heq).
  apply elem_of_filter_bool in Hin as [Hin _].
  apply elem_of_handles. eauto.
Qed.

Lemma handle_inj l t1 t2 :
  NoDup (handles l) -> t1 ∈ l -> t2 ∈ l -> handle t1 = handle t2 -> t1 = t2.
Proof.
  induction l as [|t l IH]; simpl; intros Hnd H1 H2 Heq.
  - apply elem_of_nil in H1. contradiction.
  - apply NoDup_cons in Hnd as [Hnotin Hnd].
    apply elem_of_cons in H1 as [->|H1]; apply elem_of_cons in H2 as [->|H2];
      auto.
    + exfalso. apply Hnotin, elem_of_handles. eauto.
    + exfalso. apply Hnotin, elem_of_handles. eauto.
Qed.

Lemma length_same_handle l h :
  NoDup (handles l) -> (forall t, t ∈ l -> handle t = h) -> (length l <= 1)%nat.
Proof.
  intros Hnd Hall. destruct l as [|t1 [|t2 l]]; simpl; try lia.
  exfalso.
  assert (E1 : handle t1 = h) by (apply Hall; repeat constructor).
  assert (E2 : handle t2 = h) by (apply Hall; repeat constructor).
  simpl in Hnd. apply NoDup_cons in Hnd as [Hnotin _].
  apply Hnotin. rewrite E1, <- E2. constructor.
Qed.

Lemma length_filter_cancel l t :
  NoDup (handles l) -> t ∈ l ->
  S (length (List.filter (keep_other (handle t)) l)) = length l.
Proof.
  induction l as [|t' l IH]; simpl; intros Hnd Hin.
  - apply elem_of_nil in Hin. contradiction.
  - apply NoDup_cons in Hnd as [Hnotin Hnd].
    unfold keep_other at 1.
    destruct (Nat.eqb_spec (handle t') (handle t)) as [Heq|Hne]; simpl.
    + f_equal. clear IH Hin.
      induction l as [|t'' l IH]; simpl; [reflexivity|].
      simpl in Hnotin, Hnd. apply not_elem_of_cons in Hnotin as [Hne Hnotin].
      apply NoDup_cons in Hnd as [_ Hnd].
      unfold keep_other at 1.
      destruct (Nat.eqb_spec (handle t'') (handle t)) as [Heq'|_]; simpl.
      * congruence.
      * f_equal. auto.
    + f_equal. apply IH; [assumption|].
      apply elem_of_cons in Hin as [->|Hin]; [congruence | assumption].
Qed.

Lemma find_handle l t :
  NoDup (handles l) -> t ∈ l ->
  List.find (fun t' => (handle t' =? handle t)%nat) l = Some t.
Proof.
  induction l as [|t' l IH]; simpl; intros Hnd Hin.
  - apply elem_of_nil in Hin. contradiction.
  - apply NoDup_cons in Hnd as [Hnotin Hnd].
    destruct (Nat.eqb_spec (handle t') (handle t)) as [Heq|Hne].
    + apply elem_of_cons in Hin as [->|Hin]; [reflexivity|].
      exfalso. apply Hnotin, elem_of_handles. eauto.
    + apply elem_of_cons in Hin as [->|Hin]; [congruence | auto].
Qed.

Lemma find_handle_Some l h t :
  List.find (fun t' => (handle t' =? h)%nat) l = Some t -> t ∈ l /\ handle t = h.
Proof.
  intros Hf. apply find_some in Hf as [Hin Heq].
  rewrite list_elem_of_In. split; [assumption|].
  apply Nat.eqb_eq. assumption.
Qed.

End Queue.

(** ** What each operation does to the scheduler *)

Section Operations.

Implicit Types (w : World) (a : string) (h : nat).

Lemma scheduleConversion_world a w :
  scheduleConversion a w =
  (tt,
   mkWorld (actors w) (showNotifications w) (systemId w)
     (<[a := nextHandle w]> (updateTimers w))
     (match updateTimers w !! a with
      | Some old => List.filter (keep_other old) (pending w)
      | None => pending w
      end ++ [mkTimer (nextHandle w) (now w + 100)%nat a])
     (S (nextHandle w)) (now w),
   []).
Proof.
  destruct w as [acts show sys tbl q nh t].
  unfold_M; simpl. destruct (tbl !! a); reflexivity.
Qed.

Lemma performConversion_scheduler a manual w :
  let w' := world_of (performConversion a manual w) in
  updateTimers w' = delete a (updateTimers w) /\ pending w' = pending w /\
  nextHandle w' = nextHandle w /\ now w' = now w /\
  showNotifications w' = showNotifications w /\ systemId w' = systemId w.
Proof.
  destruct w as [acts show sys tbl q nh t].
  unfold_M; simpl.
  destruct (acts !! a) as [actor|]; simpl; [|auto 10].
  destruct (negb manual && negb (needsOptimization _)); simpl; [auto 10|].
  destruct (_ <? 0); simpl.
  - destruct (show || manual); simpl; auto 10.
  - destruct (manual || _ || _ || _ || _); simpl.
    + destruct (show || manual); simpl; auto 10.
    + destruct manual; simpl; auto 10.
Qed.

Lemma fire_idle h w :
  List.find (fun t => (handle t =? h)%nat) (pending w) = None ->
  fire h w = (tt, w, []).
Proof.
  intros Hf. unfold fire. unfold_M; simpl. rewrite Hf. reflexivity.
Qed.

Lemma fire_early h w t :
  List.find (fun t => (handle t =? h)%nat) (pending w) = Some t ->
  (now w < due t)%nat ->
  fire h w = (tt, w, []).
Proof.
  intros Hf Hd. unfold fire. unfold_M; simpl. rewrite Hf.
  apply Nat.leb_gt in Hd. rewrite Hd. reflexivity.
Qed.

Lemma fire_due h w t :
  List.find (fun t => (handle t =? h)%nat) (pending w) = Some t ->
  (due t <= now w)%nat ->
  world_of (fire h w) =
  world_of (performConversion (target t) false
              (set_pending (List.filter (keep_other h)) w)).
Proof.
  intros Hf Hd. unfold fire.
  unfold mbind, M_bind, bind, gets, modify, world_of; simpl. rewrite Hf.
  apply Nat.leb_le in Hd. rewrite Hd.
  destruct (performConversion _ _ _) as [[[] w'] fx]. reflexivity.
Qed.

Lemma onUpdateActor_cases n w :
  onUpdateActor n w = (tt, w, []) \/
  onUpdateActor n w = scheduleConversion (n_actorId n) w.
Proof.
  unfold onUpdateActor.
  destruct (truthy _); [left; reflexivity|].
  unfold mbind, M_bind, bind, gets; simpl.
  destruct (string_ne _ _ || string_ne _ _); simpl; [left; reflexivity|].
  destruct (negb _); simpl; [left; reflexivity|].
  right. destruct (scheduleConversion _ _) as [[[] w'] fx]. reflexivity.
Qed.

End Operations.

(** ** The invariant along every run *)

Section Invariant.

Implicit Types (w : World) (a : string) (h : nat) (t : Timer).

Lemma wf_init acts show sys : wf (initWorld acts show sys).
Proof.
  split; simpl.
  - constructor.
  - intros t Hin. apply elem_of_nil in Hin. contradiction.
  - intros a h Hl. rewrite lookup_empty in Hl. discriminate.
Qed.

Lemma tight_init acts show sys : tight (initWorld acts show sys).
Proof. intros t Hin. simpl in Hin. apply elem_of_nil in Hin. contradiction. Qed.

Lemma cleared_sub a w t : t ∈ cleared a w -> t ∈ pending w.
Proof.
  unfold cleared. destruct (updateTimers w !! a); [|auto].
  intros Hin. apply elem_of_filter_bool in Hin. tauto.
Qed.

Lemma cleared_NoDup a w : NoDup (handles (pending w)) -> NoDup (handles (cleared a w)).
Proof.
  unfold cleared. destruct (updateTimers w !! a); [|auto].
  apply NoDup_handles_filter.
Qed.

Lemma cleared_keeps_others a w t :
  wf w -> t ∈ pending w -> target t <> a -> t ∈ cleared a w.
Proof.
  intros Hwf Hin Hne. unfold cleared.
  destruct (updateTimers w !! a) as [old|] eqn:Hl; [|assumption].
  apply elem_of_filter_bool. split; [assumption|].
  unfold keep_other. apply negb_true_iff, Nat.eqb_neq. intros Heq.
  destruct (wf_table w Hwf a old Hl) as (t' & Hin' & Hh & Ht).
  assert (t = t') by (eapply handle_inj; eauto using wf_nodup; congruence).
  congruence.
Qed.

Lemma cleared_drops_old a w old t :
  updateTimers w !! a = Some old -> t ∈ cleared a w -> handle t <> old.
Proof.
  intros Hl. unfold cleared. rewrite Hl. intros Hin.
  apply elem_of_filter_bool in Hin as [_ Hk].
  unfold keep_other in Hk. apply negb_true_iff, Nat.eqb_neq in Hk. assumption.
Qed.

Lemma wf_scheduleConversion a w : wf w -> wf (world_of (scheduleConversion a w)).
Proof.
  intros Hwf. rewrite scheduleConversion_world. unfold world_of; simpl.
  fold (cleared a w). split; simpl.
  - unfold handles. rewrite map_app. simpl.
    apply NoDup_app. split; [apply cleared_NoDup, Hwf|]. split.
    + intros h Hin Hnew. apply list_elem_of_singleton in Hnew. subst h.
      apply elem_of_handles in Hin as (t & Hin & Heq).
      apply cleared_sub, (wf_fresh w Hwf) in Hin. lia.
    + apply NoDup_singleton.
  - intros t Hin. apply elem_of_app in Hin as [Hin|Hin].
    + apply cleared_sub, (wf_fresh w Hwf) in Hin. lia.
    + apply list_elem_of_singleton in Hin. subst t. simpl. lia.
  - intros a' h Hl.
    destruct (decide (a = a')) as [<-|Hne].
    + rewrite lookup_insert_eq in Hl. injection Hl as <-.
      eexists. split; [apply elem_of_app; right; constructor|].
      simpl. auto.
    + rewrite lookup_insert_ne in Hl by assumption.
      destruct (wf_table w Hwf a' h Hl) as (t & Hin & Hh & Ht).
      exists t. split; [|auto].
      apply elem_of_app. left. apply cleared_keeps_others; congruence.
Qed.

Lemma tight_scheduleConversion a w :
  wf w -> tight w -> tight (world_of (scheduleConversion a w)).
Proof.
  intros Hwf Htight. rewrite scheduleConversion_world. unfold world_of, tight; simpl.
  fold (cleared a w). intros t Hin.
  apply elem_of_app in Hin as [Hin|Hin].
  - assert (Hne : target t <> a).
    { intros Heq. pose proof (Htight t (cleared_sub _ _ _ Hin)) as Hl.
      rewrite Heq in Hl. eapply cleared_drops_old; eauto. }
    rewrite lookup_insert_ne by congruence.
    apply Htight, (cleared_sub a). assumption.
  - apply list_elem_of_singleton in Hin. subst t. simpl.
    apply lookup_insert_eq.
Qed.

(** Dropping a table entry, whatever happens to the actors, keeps the
    invariant: this is all [performConversion] does to the scheduler. *)
Lemma wf_performConversion a manual w :
  wf w -> wf (world_of (performConversion a manual w)).
Proof.
  intros Hwf.
  destruct (performConversion_scheduler a manual w) as (Ht & Hq & Hn & _).
  split.
  - rewrite Hq. apply Hwf.
  - rewrite Hq, Hn. apply Hwf.
  - intros a' h Hl. rewrite Ht in Hl. rewrite Hq.
    destruct (decide (a = a')) as [<-|Hne].
    + rewrite lookup_delete_eq in Hl. discriminate.
    + rewrite lookup_delete_ne in Hl by assumption.
      apply (wf_table w Hwf). assumption.
Qed.

Lemma wf_fire h w : wf w -> wf (world_of (fire h w)).
Proof.
  intros Hwf.
  destruct (List.find (fun t => (handle t =? h)%nat) (pending w)) as [t|] eqn:Hf;
    [|rewrite fire_idle by assumption; exact Hwf].
  destruct (Nat.le_gt_cases (due t) (now w)) as [Hd|Hd];
    [|rewrite (fire_early h w t) by assumption; exact Hwf].
  rewrite (fire_due h w t) by assumption.
  apply find_handle_Some in Hf as [Hin Hh].
  destruct (performConversion_scheduler (target t) false
              (set_pending (List.filter (keep_other h)) w)) as (Ht & Hq & Hn & _).
  simpl in Ht, Hq, Hn.
  split.
  - rewrite Hq. apply NoDup_handles_filter, Hwf.
  - rewrite Hq, Hn. intros t' Hin'.
    apply elem_of_filter_bool in Hin' as [Hin' _]. apply Hwf. assumption.
  - intros a h' Hl. rewrite Ht in Hl. rewrite Hq.
    destruct (decide (target t = a)) as [<-|Hne].
    + rewrite lookup_delete_eq in Hl. discriminate.
    + rewrite lookup_delete_ne in Hl by assumption.
      destruct (wf_table w Hwf a h' Hl) as (t' & Hin' & Hh' & Ht').
      exists t'. split; [|auto].
      apply elem_of_filter_bool. split; [assumption|].
      unfold keep_other. apply negb_true_iff, Nat.eqb_neq. intros Heq.
      assert (t' = t) by (eapply handle_inj; eauto using wf_nodup; congruence).
      congruence.
Qed.

Lemma tight_fire h w : wf w -> tight w -> tight (world_of (fire h w)).
Proof.
  intros Hwf Htight.
  destruct (List.find (fun t => (handle t =? h)%nat) (pending w)) as [t|] eqn:Hf;
    [|rewrite fire_idle by assumption; exact Htight].
  destruct (Nat.le_gt_cases (due t) (now w)) as [Hd|Hd];
    [|rewrite (fire_early h w t) by assumption; exact Htight].
  rewrite (fire_due h w t) by assumption.
  apply find_handle_Some in Hf as [Hin Hh].
  destruct (performConversion_scheduler (target t) false
              (set_pending (List.filter (keep_other h)) w)) as (Ht & Hq & _).
  simpl in Ht, Hq.
  intros t' Hin'. rewrite Hq in Hin'. rewrite Ht.
  apply elem_of_filter_bool in Hin' as [Hin' Hk].
  unfold keep_other in Hk. apply negb_true_iff, Nat.eqb_neq in Hk.
  assert (Hne : target t <> target t').
  { intros Heq. pose proof (Htight t Hin) as H1. pose proof (Htight t' Hin') as H2.
    rewrite Heq in H1. congruence. }
  rewrite lookup_delete_ne by assumption. apply Htight. assumption.
Qed.

Lemma wf_step e w : wf w -> wf (world_of (step e w)).
Proof.
  intros Hwf. destruct e as [n|a|h|d|a|a data]; simpl.
  - destruct (onUpdateActor_cases n w) as [-> | ->];
      [exact Hwf | apply wf_scheduleConversion; exact Hwf].
  - apply wf_scheduleConversion; exact Hwf.
  - apply wf_fire; exact Hwf.
  - destruct Hwf. split; assumption.
  - apply wf_performConversion; exact Hwf.
  - destruct Hwf. split; assumption.
Qed.

Lemma tight_step e w :
  is_manual e = false -> wf w -> tight w -> tight (world_of (step e w)).
Proof.
  intros Hm Hwf Htight. destruct e as [n|a|h|d|a|a data]; simpl; try discriminate.
  - destruct (onUpdateActor_cases n w) as [-> | ->];
      [exact Htight | apply tight_scheduleConversion; assumption].
  - apply tight_scheduleConversion; assumption.
  - apply tight_fire; assumption.
  - exact Htight.
  - exact Htight.
Qed.

Lemma run_cons e evs w :
  world_of (run (e :: evs) w) = world_of (run evs (world_of (step e w))).
Proof.
  simpl. unfold mbind, M_bind, bind, world_of.
  destruct (step e w) as [[[] w1] fx1]; simpl.
  destruct (run evs w1) as [[[] w2] fx2]; reflexivity.
Qed.

Lemma wf_run evs w : wf w -> wf (world_of (run evs w)).
Proof.
  revert w. induction evs as [|e evs IH]; intros w Hwf; [exact Hwf|].
  rewrite run_cons. apply IH, wf_step, Hwf.
Qed.

Lemma tight_run evs w :
  forallb (fun e => negb (is_manual e)) evs = true ->
  wf w -> tight w -> tight (world_of (run evs w)).
Proof.
  revert w. induction evs as [|e evs IH]; intros w Hm Hwf Htight; [exact Htight|].
  simpl in Hm. apply andb_true_iff in Hm as [He Hm].
  apply negb_true_iff in He.
  rewrite run_cons. apply IH; [assumption | apply wf_step, Hwf |].
  apply tight_step; assumption.
Qed.

End Invariant.

(** ** At most one pending timeout per actor *)

Section AtMostOne.

Implicit Types (w : World) (a : string) (h : nat) (t : Timer).

Lemma filter_none (p : Timer -> bool) (l : list Timer) :
  (forall t, t ∈ l -> p t = false) -> List.filter p l = [].
Proof.
  induction l as [|t l IH]; intros Hall; simpl; [reflexivity|].
  rewrite (Hall t) by constructor.
  apply IH. intros t' Hin. apply Hall. constructor. assumption.
Qed.

Lemma registered_at_most_one a w : wf w -> (length (registered a w) <= 1)%nat.
Proof.
  intros Hwf. unfold registered, outstanding.
  destruct (updateTimers w !! a) as [h|]; [|simpl; lia].
  apply (length_same_handle _ h).
  - do 2 apply NoDup_handles_filter. apply Hwf.
  - intros t Hin. apply elem_of_filter_bool in Hin as [_ Heq].
    apply Nat.eqb_eq. assumption.
Qed.

Lemma outstanding_at_most_one a w :
  wf w -> tight w -> (length (outstanding a w) <= 1)%nat.
Proof.
  intros Hwf Htight. unfold outstanding.
  apply (length_same_handle _ (default 0%nat (updateTimers w !! a))).
  - apply NoDup_handles_filter, Hwf.
  - intros t Hin. apply elem_of_filter_bool in Hin as [Hin Heq].
    apply String.eqb_eq in Heq. subst a.
    rewrite (Htight t Hin). reflexivity.
Qed.

Lemma reschedule_restarts a w old :
  wf w -> updateTimers w !! a = Some old ->
  let w' := world_of (scheduleConversion a w) in
  (forall t, t ∈ pending w' -> handle t <> old) /\
  registered a w' = [mkTimer (nextHandle w) (now w + 100)%nat a] /\
  length (pending w') = length (pending w).
Proof.
  intros Hwf Hl.
  destruct (wf_table w Hwf a old Hl) as (t0 & Hin0 & Hh0 & Ht0).
  pose proof (wf_fresh w Hwf t0 Hin0) as Hlt.
  rewrite scheduleConversion_world. unfold world_of; simpl.
  fold (cleared a w). split; [|split].
  - intros t Hin. apply elem_of_app in Hin as [Hin|Hin].
    + eapply cleared_drops_old; eauto.
    + apply list_elem_of_singleton in Hin. subst t. simpl. lia.
  - unfold registered, outstanding; simpl.
    rewrite lookup_insert_eq, !List.filter_app; simpl.
    rewrite String.eqb_refl; simpl. rewrite Nat.eqb_refl.
    rewrite filter_none; [reflexivity|].
    intros t Hin. apply elem_of_filter_bool in Hin as [Hin _].
    apply cleared_sub, (wf_fresh w Hwf) in Hin.
    apply Nat.eqb_neq. lia.
  - rewrite length_app; simpl. unfold cleared. rewrite Hl, <- Hh0.
    rewrite <- (length_filter_cancel (pending w) t0) by (assumption || apply Hwf).
    lia.
Qed.

Lemma firing_removes_entry w t :
  wf w -> t ∈ pending w -> (due t <= now w)%nat ->
  let w' := world_of (fire (handle t) w) in
  updateTimers w' !! target t = None /\ t ∉ pending w'.
Proof.
  intros Hwf Hin Hd.
  assert (Hf : List.find (fun t' => (handle t' =? handle t)%nat) (pending w) = Some t)
    by (apply find_handle; [apply Hwf | assumption]).
  rewrite (fire_due (handle t) w t Hf Hd).
  destruct (performConversion_scheduler (target t) false
              (set_pending (List.filter (keep_other (handle t))) w)) as (Ht & Hq & _).
  simpl in Ht, Hq. simpl. rewrite Ht, Hq. split.
  - apply lookup_delete_eq.
  - intros Hin'. apply elem_of_filter_bool in Hin' as [_ Hk].
    unfold keep_other in Hk. rewrite Nat.eqb_refl in Hk. discriminate.
Qed.

End AtMostOne.

(** What the scheduler does keep.  In every state it reaches from an idle
    start the table holds at most one pending timeout for each actor, and
    while no manual exchange has run the host queue itself holds at most
    one timeout per actor.  Scheduling an actor that has an entry clears
    the old timeout, installs one due a full quiet period from now as the
    actor's only registered timeout, and leaves the queue no longer than it
    was.  A timeout that fires leaves the queue and the actor's entry is
    removed.  After a manual exchange the host-level bound is lost. *)
Lemma scheduler_at_most_one_pending acts show sys evs a :
  let w := world_of (run evs (initWorld acts show sys)) in
  (length (registered a w) <= 1)%nat /\
  (forallb (fun e => negb (is_manual e)) evs = true ->
   (length (outstanding a w) <= 1)%nat) /\
  (forall old, updateTimers w !! a = Some old ->
     let w' := world_of (scheduleConversion a w) in
     (forall t, t ∈ pending w' -> handle t <> old) /\
     registered a w' = [mkTimer (nextHandle w) (now w + 100)%nat a] /\
     length (pending w') = length (pending w)) /\
  (forall t, t ∈ pending w -> target t = a -> (due t <= now w)%nat ->
     let w' := world_of (fire (handle t) w) in
     updateTimers w' !! a = None /\ t ∉ pending w').
Proof.
  intros w.
  assert (Hwf : wf w) by apply wf_run, wf_init.
  split; [apply registered_at_most_one, Hwf|].
  split; [|split].
  - intros Hm. apply outstanding_at_most_one; [exact Hwf|].
    apply tight_run; [assumption | apply wf_init | apply tight_init].
  - intros old Hl. apply reschedule_restarts; assumption.
  - intros t Hin <- Hd. apply firing_removes_entry; assumption.
Qed.

(** Scenario D on the model: three notifications within the quiet period
    leave one timeout, due a quiet period after the last of them. *)
Example scenario_D :
  let w := world_of (run [Schedule "a1"; Elapse 20; Schedule "a1"; Elapse 20; Schedule "a1"]
                         (initWorld ∅ true "gdsa")) in
  pending w = [mkTimer 2 140 "a1"].
Proof. reflexivity. Qed.

(** A manual exchange drops the table entry without clearing the timeout:
    the next notification finds no entry to cancel, and two callbacks for
    the same actor are then queued at the host, one of them registered. *)
Example manual_exchange_leaves_timeout :
  let w := world_of (run [Schedule "a1"; Manual "a1"; Schedule "a1"]
                         (initWorld ∅ true "gdsa")) in
  length (outstanding "a1" w) = 2%nat /\ length (registered "a1" w) = 1%nat.
Proof. split; reflexivity. Qed.

(** ** Loop prevention *)

Lemma scheduleConversion_takes_handle a w :
  nextHandle (world_of (scheduleConversion a w)) = S (nextHandle w).
Proof. rewrite scheduleConversion_world. reflexivity. Qed.

Lemma scheduleConversion_not_silent a w : scheduleConversion a w <> (tt, w, []).
Proof.
  intros Heq. pose proof (scheduleConversion_takes_handle a w) as Hn.
  rewrite Heq in Hn. unfold world_of in Hn; simpl in Hn. lia.
Qed.

Lemma onUpdateActor_marked n w :
  truthy (gdsa_autoconvert (n_options n)) = true -> onUpdateActor n w = (tt, w, []).
Proof. intros Hm. unfold onUpdateActor. rewrite Hm. reflexivity. Qed.

(** C9: a notification whose options carry a truthy [gdsa_autoconvert]
    leaves the hook without calling [scheduleConversion]: the world is
    unchanged, no timeout is installed, whereas a call of
    [scheduleConversion] always takes a fresh handle.  Every write the
    apply-step performs carries the marker, so when the host echoes such a
    write to the hook, in whatever world and for whatever actor data, the
    hook again does nothing. *)
Theorem marked_notification_never_schedules :
  (forall n w,
     truthy (gdsa_autoconvert (n_options n)) = true ->
     onUpdateActor n w = (tt, w, []) /\
     forall a, onUpdateActor n w <> scheduleConversion a w) /\
  (forall w a manual a' data options,
     Update a' data options ∈ effects_of (performConversion a manual w) ->
     forall n w', n_options n = options ->
     onUpdateActor n w' = (tt, w', []) /\
     forall b, onUpdateActor n w' <> scheduleConversion b w').
Proof.
  assert (Hmarked : forall n w,
     truthy (gdsa_autoconvert (n_options n)) = true ->
     onUpdateActor n w = (tt, w, []) /\
     forall a, onUpdateActor n w <> scheduleConversion a w).
  { intros n w Hm. rewrite onUpdateActor_marked by assumption.
    split; [reflexivity|].
    intros a Heq. symmetry in Heq. revert Heq. apply scheduleConversion_not_silent. }
  split; [exact Hmarked|].
  intros w a manual a' data options Hin n w' Hopt.
  apply performConversion_writes_tagged in Hin as [_ ->].
  apply Hmarked. rewrite Hopt. reflexivity.
Qed.

Lemma marked_notification_never_schedules_witness :
  let w := initWorld {[ "a1" := mkActor "Alrik" "PlayerCharakter" (money 0 12 0 0) ]}
                     true "gdsa" in
  let n := mkNotification "a1" "PlayerCharakter" true tagged in
  truthy (gdsa_autoconvert (n_options n)) = true /\
  Update "a1" (money 1 2 0 0) tagged ∈ effects_of (performConversion "a1" false w) /\
  onUpdateActor n (world_of (performConversion "a1" false w))
    = (tt, world_of (performConversion "a1" false w), []) /\
  onUpdateActor n w = (tt, w, []).
Proof.
  intros w n.
  assert (Hm : truthy (gdsa_autoconvert (n_options n)) = true) by reflexivity.
  assert (Hin : Update "a1" (money 1 2 0 0) tagged
                  ∈ effects_of (performConversion "a1" false w))
    by (vm_compute; constructor).
  destruct marked_notification_never_schedules as [H1 H2].
  destruct (H1 n w Hm) as [H1' _].
  destruct (H2 w "a1" false "a1" (money 1 2 0 0) tagged Hin n
               (world_of (performConversion "a1" false w)) eq_refl) as [H2' _].
  repeat split; assumption.
Defined.

(** The same notification without the marker does schedule. *)
Example unmarked_notification_schedules :
  let w := initWorld ∅ true "gdsa" in
  let n := mkNotification "a1" "PlayerCharakter" true (mkOptions None) in
  pending (world_of (onUpdateActor n w)) = [mkTimer 0 100 "a1"].
Proof. reflexivity. Qed.


(** * Further properties of the normaliser *)

Lemma canonical_of_nonneg n : 0 <= n -> needsOptimization (fromBaseUnit n) = false.
Proof.
  intros Hn. destruct (needsOptimization (fromBaseUnit n)) eqn:E; [|reflexivity].
  exfalso. apply needsOptimization_spec in E.
  rewrite fromBaseUnit_nonneg in E by assumption. simpl in E.
  revert E. Z.to_euclidean_division_equations; lia.
Qed.

Lemma toBaseUnit_nonneg_of_canonical m :
  needsOptimization m = false -> 0 <= toBaseUnit m.
Proof.
  intros H. apply needsOptimization_false in H.
  unfold toBaseUnit, CONVERSION_RATES.gold, CONVERSION_RATES.silver,
    CONVERSION_RATES.copper, CONVERSION_RATES.nickel. lia.
Qed.

Lemma div_rem_inj b a a' :
  b = 10 \/ b = 100 \/ b = 1000 ->
  a / b = a' / b -> Z.rem a b = Z.rem a' b -> a = a'.
Proof.
  intros [->|[->| ->]] Hq Hr; revert Hq Hr;
    Z.to_euclidean_division_equations; lia.
Qed.

Lemma fromBaseUnit_inj n n' : fromBaseUnit n = fromBaseUnit n' -> n = n'.
Proof.
  rewrite !fromBaseUnit_unfold. unfold money. intros H.
  injection H as Hg Hs Hc Hk.
  apply (div_rem_inj 10) in Hk; [|auto|assumption].
  apply (div_rem_inj 100) in Hk; [|auto|assumption].
  apply (div_rem_inj 1000) in Hk; [|auto|assumption].
  exact Hk.
Qed.

Lemma optimizeMoney_value m :
  0 <= toBaseUnit m -> toBaseUnit (optimizeMoney m) = toBaseUnit m.
Proof. intros H. unfold optimizeMoney. apply roundtrip_nonneg. assumption. Qed.

Lemma negative_test_sign m :
  toBaseUnit m < 0 <-> toBaseUnit (optimizeMoney m) < 0.
Proof. unfold optimizeMoney. symmetry. apply roundtrip_sign. Qed.

(** [fromBaseUnit] loses nothing, not even below zero where the round trip
    through [toBaseUnit] fails: two totals with the same coin record are
    the same total. *)
Theorem fromBaseUnit_injective n n' :
  fromBaseUnit n = fromBaseUnit n' -> n = n'.
Proof. apply fromBaseUnit_inj. Qed.

Lemma fromBaseUnit_injective_witness :
  fromBaseUnit (-5) = fromBaseUnit (-5) /\ -5 = -5.
Proof.
  split; [reflexivity | apply (fromBaseUnit_injective (-5) (-5)); reflexivity].
Defined.

(** In exact arithmetic the canonical form is unique: two records with
    every field present that need no optimisation and are worth the same
    are the same record. *)
Lemma canonical_record_unique g s c k g' s' c' k' :
  needsOptimization (money g s c k) = false ->
  needsOptimization (money g' s' c' k') = false ->
  toBaseUnit (money g s c k) = toBaseUnit (money g' s' c' k') ->
  money g s c k = money g' s' c' k'.
Proof.
  intros H1 H2 Heq.
  apply needsOptimization_false in H1, H2. simpl in H1, H2.
  rewrite !toBaseUnit_money in Heq.
  assert (k = k') by lia. assert (c = c') by lia. assert (s = s') by lia.
  assert (g = g') by lia. congruence.
Qed.




(** * Further properties of the apply-step *)

Section ApplyStep.

Implicit Types (w : World) (a b : string) (m : Money).

Lemma strictNe_false x o : strictNe (Some x) o = false -> o = Some x.
Proof.
  unfold strictNe. destruct o as [y|]; [|discriminate].
  intros H. apply negb_false_iff, Z.eqb_eq in H. congruence.
Qed.

Lemma differs_false g s c k m : differs (money g s c k) m = false -> m = money g s c k.
Proof.
  unfold differs; simpl. intros H.
  apply orb_false_iff in H as [H Hk]. apply orb_false_iff in H as [H Hc].
  apply orb_false_iff in H as [Hg Hs].
  apply strictNe_false in Hg, Hs, Hc, Hk.
  destruct m; simpl in *; subst. reflexivity.
Qed.

(** A record that needs optimising is never equal to its optimised form:
    in the automatic path the comparison before the write always
    succeeds. *)
Lemma needs_differs m :
  needsOptimization m = true -> 0 <= toBaseUnit m -> differs (optimizeMoney m) m = true.
Proof.
  intros Hneeds Hpos. destruct (differs (optimizeMoney m) m) eqn:E; [reflexivity|].
  exfalso. unfold optimizeMoney in E. rewrite fromBaseUnit_unfold in E.
  apply differs_false in E.
  pose proof (canonical_of_nonneg _ Hpos) as Hc.
  rewrite fromBaseUnit_unfold, <- E in Hc. congruence.
Qed.

Lemma apply_missing a manual w :
  actors w !! a = None ->
  performConversion a manual w = (tt, set_updateTimers (delete a) w, []).
Proof.
  intros Hact. destruct w as [acts show sys tbl q nh t]; simpl in *.
  unfold_M; simpl. rewrite Hact. reflexivity.
Qed.

Lemma apply_skip a w actor :
  actors w !! a = Some actor ->
  needsOptimization (actor_money actor) = false ->
  performConversion a false w = (tt, set_updateTimers (delete a) w, []).
Proof.
  intros Hact Hneeds. destruct w as [acts show sys tbl q nh t]; simpl in *.
  unfold_M; simpl. rewrite Hact; simpl. rewrite Hneeds. reflexivity.
Qed.

Lemma apply_negative a manual w actor :
  actors w !! a = Some actor ->
  toBaseUnit (actor_money actor) < 0 ->
  performConversion a manual w =
    (tt,
     set_actors (alter (write_money zeroMoney) a) (set_updateTimers (delete a) w),
     (if showNotifications w || manual then [Warn InsufficientFunds] else [])
       ++ [Update a zeroMoney tagged]).
Proof.
  intros Hact Hneg.
  apply negative_test_sign in Hneg.
  pose proof (negative_total_needs_optimization _ Hneg) as Hneeds.
  apply Z.ltb_lt in Hneg.
  destruct w as [acts show sys tbl q nh t]; simpl in *.
  unfold_M; simpl. rewrite Hact; simpl.
  rewrite Hneeds, andb_false_r, Hneg; simpl.
  destruct (show || manual); reflexivity.
Qed.

Lemma apply_write a manual w actor :
  actors w !! a = Some actor ->
  0 <= toBaseUnit (actor_money actor) ->
  manual || needsOptimization (actor_money actor) = true ->
  performConversion a manual w =
    let optimized := optimizeMoney (actor_money actor) in
    (tt,
     set_actors (alter (write_money optimized) a) (set_updateTimers (delete a) w),
     Update a optimized tagged ::
     (if showNotifications w || manual
      then [Info (OptimizedNotification (actor_name actor) (gold optimized)
                    (silver optimized) (copper optimized) (nickel optimized))]
      else [])).
Proof.
  intros Hact Hpos Hgo.
  assert (Htot : (toBaseUnit (optimizeMoney (actor_money actor)) <? 0) = false).
  { apply Z.ltb_ge. rewrite optimizeMoney_value by assumption. assumption. }
  destruct w as [acts show sys tbl q nh t]; simpl in *.
  unfold_M; simpl. rewrite Hact; simpl. rewrite Htot.
  destruct manual; simpl in *.
  - rewrite orb_true_r. reflexivity.
  - rewrite Hgo; simpl.
    pose proof (needs_differs _ Hgo Hpos) as Hd. unfold differs in Hd.
    simpl in Hd. rewrite Hd; simpl. destruct show; reflexivity.
Qed.

End ApplyStep.

Ltac apply_cases Hact manual actor :=
  let Hneg := fresh "Hneg" in
  let Hpos := fresh "Hpos" in
  let Hgo := fresh "Hgo" in
  let Hneeds := fresh "Hneeds" in
  destruct (Z.lt_ge_cases (toBaseUnit (actor_money actor)) 0) as [Hneg|Hpos];
  [ rewrite (apply_negative _ manual _ _ Hact Hneg)
  | destruct (manual || needsOptimization (actor_money actor)) eqn:Hgo;
    [ rewrite (apply_write _ _ _ _ Hact Hpos Hgo)
    | apply orb_false_iff in Hgo as [Hgo Hneeds];
      try rewrite Hgo in *;
      rewrite (apply_skip _ _ _ Hact Hneeds) ] ].

Lemma stored_Some a w m :
  stored a w = Some m <-> exists actor, actors w !! a = Some actor /\ actor_money actor = m.
Proof.
  unfold stored. destruct (actors w !! a) as [actor|]; split.
  - intros [= <-]. eauto.
  - intros (actor' & [= <-] & <-). reflexivity.
  - discriminate.
  - intros (actor' & H & _). discriminate.
Qed.

(** The purse an existing actor is left with. *)
Lemma apply_stored a manual w actor :
  actors w !! a = Some actor ->
  stored a (world_of (performConversion a manual w)) =
  Some (if toBaseUnit (actor_money actor) <? 0 then zeroMoney
        else if manual || needsOptimization (actor_money actor)
             then optimizeMoney (actor_money actor)
             else actor_money actor).
Proof.
  intros Hact. apply_cases Hact manual actor;
    unfold stored, world_of; simpl.
  - rewrite lookup_alter_eq, Hact; simpl.
    apply Z.ltb_lt in Hneg. rewrite Hneg. reflexivity.
  - rewrite lookup_alter_eq, Hact; simpl.
    apply Z.ltb_ge in Hpos. rewrite Hpos. reflexivity.
  - rewrite Hact. apply Z.ltb_ge in Hpos. rewrite Hpos. reflexivity.
Qed.

Lemma apply_step_leaves_canonical_aux a manual w actor :
  actors w !! a = Some actor ->
  exists actor',
    actors (world_of (performConversion a manual w)) !! a = Some actor' /\
    needsOptimization (actor_money actor') = false.
Proof.
  intros Hact.
  pose proof (apply_stored a manual w actor Hact) as Hst.
  apply stored_Some in Hst as (actor' & Hact' & Hm).
  exists actor'. split; [assumption|]. rewrite Hm.
  destruct (Z.ltb_spec (toBaseUnit (actor_money actor)) 0) as [Hneg|Hpos].
  - reflexivity.
  - destruct (manual || needsOptimization (actor_money actor)) eqn:Hgo.
    + apply canonical_of_nonneg. assumption.
    + apply orb_false_iff in Hgo as [_ Hneeds]. assumption.
Qed.

(** after the apply-step the purse of an existing actor needs no
    optimisation, manual run or not. *)
Theorem apply_step_leaves_canonical a manual w actor :
  actors w !! a = Some actor ->
  exists m',
    stored a (world_of (performConversion a manual w)) = Some m' /\
    needsOptimization m' = false.
Proof.
  intros Hact.
  destruct (apply_step_leaves_canonical_aux a manual w actor Hact)
    as (actor' & Hact' & Hc).
  exists (actor_money actor'). split; [|assumption].
  apply stored_Some. eauto.
Qed.

Lemma apply_step_leaves_canonical_witness :
  let actor := mkActor "Alrik" "PlayerCharakter" (money 0 0 57 (-3)) in
  let w := initWorld {[ "a1" := actor ]} true "gdsa" in
  actors w !! "a1" = Some actor /\
  exists m',
    stored "a1" (world_of (performConversion "a1" true w)) = Some m' /\
    needsOptimization m' = false.
Proof.
  intros actor w. split; [reflexivity|].
  apply (apply_step_leaves_canonical "a1" true w actor). reflexivity.
Defined.

(** an automatic apply-step that follows any apply-step for the same
    actor does nothing but drop the table entry: no write, no message.
    The write-back cannot start a chain of corrections even if the hook
    let it through. *)
Theorem second_apply_step_is_silent a manual w :
  let w' := world_of (performConversion a manual w) in
  performConversion a false w' = (tt, set_updateTimers (delete a) w', []).
Proof.
  intros w'. destruct (actors w !! a) as [actor|] eqn:Hact.
  - destruct (apply_step_leaves_canonical_aux a manual w actor Hact)
      as (actor' & Hact' & Hc).
    apply (apply_skip _ _ actor'); assumption.
  - apply apply_missing. subst w'.
    rewrite (apply_missing _ _ _ Hact). exact Hact.
Qed.

(** An actor that no longer exists: the apply-step drops the table entry
    and does nothing else, manual or not. *)
Theorem apply_step_missing_actor a manual w :
  actors w !! a = None ->
  performConversion a manual w = (tt, set_updateTimers (delete a) w, []) /\
  actors (world_of (performConversion a manual w)) = actors w.
Proof.
  intros Hact. rewrite (apply_missing _ _ _ Hact). split; reflexivity.
Qed.

Lemma apply_step_missing_actor_witness :
  let w := initWorld ∅ true "gdsa" in
  actors w !! "ghost" = None /\
  performConversion "ghost" true w = (tt, set_updateTimers (delete "ghost") w, []).
Proof.
  intros w. split; [reflexivity|].
  apply (apply_step_missing_actor "ghost" true w). reflexivity.
Defined.

(** The apply-step touches one purse only: every other actor is as it was,
    no actor appears or disappears, the actor itself keeps its name and
    type, and the settings are not written. *)
Theorem apply_step_frame a manual w :
  let w' := world_of (performConversion a manual w) in
  (forall b, b <> a -> actors w' !! b = actors w !! b) /\
  actor_name <$> actors w' !! a = actor_name <$> actors w !! a /\
  actor_type <$> actors w' !! a = actor_type <$> actors w !! a /\
  showNotifications w' = showNotifications w /\
  systemId w' = systemId w.
Proof.
  intros w'. subst w'.
  destruct (performConversion_scheduler a manual w) as (_ & _ & _ & _ & Hs & Hi).
  simpl in Hs, Hi.
  assert (Hmain :
    (forall b, b <> a ->
       actors (world_of (performConversion a manual w)) !! b = actors w !! b) /\
    actor_name <$> actors (world_of (performConversion a manual w)) !! a
      = actor_name <$> actors w !! a /\
    actor_type <$> actors (world_of (performConversion a manual w)) !! a
      = actor_type <$> actors w !! a).
  { destruct (actors w !! a) as [actor|] eqn:Hact.
    - apply_cases Hact manual actor; unfold world_of; simpl;
        rewrite ?lookup_alter_eq, ?Hact; simpl;
        (split; [intros b Hb; rewrite ?lookup_alter_ne by congruence; reflexivity
                | auto]).
    - rewrite (apply_missing _ _ _ Hact). unfold world_of; simpl.
      rewrite Hact. auto. }
  destruct Hmain as (H1 & H2 & H3). auto.
Qed.



(** One attempt per apply-step: no run calls [actor.update] twice. *)
Theorem apply_step_writes_at_most_once a manual w :
  (length (writes (effects_of (performConversion a manual w))) <= 1)%nat.
Proof.
  destruct (actors w !! a) as [actor|] eqn:Hact.
  - apply_cases Hact manual actor; unfold effects_of; simpl;
      repeat match goal with |- context [if ?c then _ else _] => destruct c end;
      simpl; lia.
  - rewrite (apply_missing _ _ _ Hact). simpl. lia.
Qed.

(** With the notification setting off, the automatic apply-step shows the
    user nothing: its log holds writes only. *)
Theorem automatic_step_quiet_when_notifications_off a w :
  showNotifications w = false ->
  writes (effects_of (performConversion a false w)) = effects_of (performConversion a false w).
Proof.
  intros Hoff. destruct (actors w !! a) as [actor|] eqn:Hact.
  - apply_cases Hact false actor; unfold effects_of; simpl;
      rewrite ?Hoff; reflexivity.
  - rewrite (apply_missing _ _ _ Hact). reflexivity.
Qed.

Lemma automatic_step_quiet_when_notifications_off_witness :
  let w := initWorld {[ "a1" := mkActor "Alrik" "PlayerCharakter" (money 0 0 0 (-5)) ]}
                     false "gdsa" in
  showNotifications w = false /\
  effects_of (performConversion "a1" false w) = [Update "a1" zeroMoney tagged].
Proof.
  intros w. split; [reflexivity|].
  rewrite <- (automatic_step_quiet_when_notifications_off "a1" w eq_refl).
  reflexivity.
Defined.

(** The apply-step of the earlier script is the automatic run of the
    present one: adding the [manual] parameter changed nothing for the
    debounced path. *)
Theorem script_performConversion_is_automatic_run a w :
  Script.performConversion a w = performConversion a false w.
Proof.
  destruct w as [acts show sys tbl q nh t].
  unfold Script.performConversion. unfold_M; simpl.
  destruct (acts !! a) as [actor|]; simpl; [|reflexivity].
  destruct (needsOptimization _); simpl; [|reflexivity].
  destruct (_ <? 0); simpl.
  - rewrite orb_false_r. reflexivity.
  - destruct (strictNe _ _ || _ || _ || _); simpl; [|reflexivity].
    rewrite orb_false_r. reflexivity.
Qed.

(** * Further properties of the scheduler and of whole runs *)

Section Runs.

Implicit Types (w : World) (a b : string) (h : nat) (t : Timer).

Lemma run_cons_effects e evs w :
  effects_of (run (e :: evs) w) =
  effects_of (step e w) ++ effects_of (run evs (world_of (step e w))).
Proof.
  simpl. unfold mbind, M_bind, bind, effects_of, world_of.
  destruct (step e w) as [[[] w1] fx1]; simpl.
  destruct (run evs w1) as [[[] w2] fx2]; reflexivity.
Qed.

Lemma fire_due_full h w t :
  List.find (fun t => (handle t =? h)%nat) (pending w) = Some t ->
  (due t <= now w)%nat ->
  fire h w = performConversion (target t) false
               (set_pending (List.filter (keep_other h)) w).
Proof.
  intros Hf Hd. unfold fire.
  unfold mbind, M_bind, bind, gets, modify; simpl. rewrite Hf.
  apply Nat.leb_le in Hd. rewrite Hd.
  destruct (performConversion _ _ _) as [[[] w'] fx]. reflexivity.
Qed.

Lemma fire_cases h w :
  fire h w = (tt, w, []) \/
  exists a w0, fire h w = performConversion a false w0.
Proof.
  destruct (List.find (fun t => (handle t =? h)%nat) (pending w)) as [t|] eqn:Hf;
    [|left; apply fire_idle; assumption].
  destruct (Nat.le_gt_cases (due t) (now w)) as [Hd|Hd];
    [|left; apply (fire_early h w t); assumption].
  right. eexists _, _. apply (fire_due_full h w t); assumption.
Qed.

Lemma step_writes_tagged e w a d o :
  Update a d o ∈ effects_of (step e w) -> o = tagged.
Proof.
  destruct e as [n|a'|h|dt|a'|a' data]; simpl; intros Hin.
  - destruct (onUpdateActor_cases n w) as [E|E]; rewrite E in Hin.
    + in_log Hin.
    + rewrite scheduleConversion_world in Hin. in_log Hin.
  - rewrite scheduleConversion_world in Hin. in_log Hin.
  - destruct (fire_cases h w) as [E|(a0 & w0 & E)]; rewrite E in Hin.
    + in_log Hin.
    + apply performConversion_writes_tagged in Hin. tauto.
  - in_log Hin.
  - apply performConversion_writes_tagged in Hin. tauto.
  - in_log Hin.
Qed.

Lemma outstanding_after_schedule a w :
  wf w -> tight w ->
  outstanding a (world_of (scheduleConversion a w)) =
  [mkTimer (nextHandle w) (now w + 100)%nat a].
Proof.
  intros Hwf Htight. rewrite scheduleConversion_world.
  unfold outstanding, world_of; simpl. fold (cleared a w).
  rewrite List.filter_app; simpl. rewrite String.eqb_refl.
  rewrite filter_none; [reflexivity|].
  intros t Hin. destruct (String.eqb_spec (target t) a) as [Heq|]; [|reflexivity].
  exfalso. pose proof (Htight t (cleared_sub _ _ _ Hin)) as Hl. rewrite Heq in Hl.
  eapply cleared_drops_old; eauto.
Qed.

Lemma filter_keep_other (p : Timer -> bool) h (l : list Timer) :
  (forall t, t ∈ l -> handle t = h -> p t = false) ->
  List.filter p (List.filter (keep_other h) l) = List.filter p l.
Proof.
  induction l as [|t l IH]; intros Hall; simpl; [reflexivity|].
  assert (IH' : List.filter p (List.filter (keep_other h) l) = List.filter p l).
  { apply IH. intros t' Hin. apply Hall. constructor. assumption. }
  unfold keep_other at 1.
  destruct (Nat.eqb_spec (handle t) h) as [Heq|Hne]; simpl.
  - rewrite (Hall t) by (constructor || assumption). assumption.
  - rewrite IH'. reflexivity.
Qed.

Lemma outstanding_other_after_schedule a b w :
  wf w -> b <> a ->
  outstanding b (world_of (scheduleConversion a w)) = outstanding b w.
Proof.
  intros Hwf Hne. rewrite scheduleConversion_world.
  unfold outstanding, world_of; simpl.
  rewrite List.filter_app; simpl.
  destruct (String.eqb_spec a b) as [Heq|_]; [congruence|].
  rewrite app_nil_r.
  destruct (updateTimers w !! a) as [old|] eqn:Hl; [|reflexivity].
  apply filter_keep_other. intros t Hin Hh.
  destruct (wf_table w Hwf a old Hl) as (t0 & Hin0 & Hh0 & Ht0).
  assert (t = t0) by (eapply handle_inj; eauto using wf_nodup; congruence).
  subst t0. apply String.eqb_neq. congruence.
Qed.

Lemma outstanding_after_fire w t :
  wf w -> tight w -> t ∈ pending w -> (due t <= now w)%nat ->
  outstanding (target t) (world_of (fire (handle t) w)) = [].
Proof.
  intros Hwf Htight Hin Hd.
  assert (Hf : List.find (fun t' => (handle t' =? handle t)%nat) (pending w) = Some t)
    by (apply find_handle; [apply Hwf | assumption]).
  rewrite (fire_due (handle t) w t Hf Hd).
  destruct (performConversion_scheduler (target t) false
              (set_pending (List.filter (keep_other (handle t))) w)) as (_ & Hq & _).
  simpl in Hq. unfold outstanding. rewrite Hq.
  apply filter_none. intros t' Hin'.
  apply elem_of_filter_bool in Hin' as [Hin' Hk].
  unfold keep_other in Hk. apply negb_true_iff, Nat.eqb_neq in Hk.
  apply String.eqb_neq. intros Heq.
  pose proof (Htight t Hin) as H1. pose proof (Htight t' Hin') as H2.
  rewrite Heq in H2. congruence.
Qed.

End Runs.

(** In no run, whatever the events, does the module call [actor.update]
    without the marker [gdsa_autoconvert]: every write in the log of a run
    carries it. *)
Theorem run_writes_are_tagged evs w a d o :
  Update a d o ∈ effects_of (run evs w) -> o = tagged.
Proof.
  revert w. induction evs as [|e evs IH]; intros w Hin.
  - in_log Hin.
  - rewrite run_cons_effects in Hin. apply elem_of_app in Hin as [Hin|Hin].
    + eapply step_writes_tagged; eassumption.
    + eapply IH; eassumption.
Qed.

Lemma run_writes_are_tagged_witness :
  let w := initWorld {[ "a1" := mkActor "Alrik" "PlayerCharakter" (money 0 0 0 23) ]}
                     true "gdsa" in
  let evs := [Schedule "a1"; Elapse 100; Fire 0] in
  Update "a1" (money 0 0 2 3) tagged ∈ effects_of (run evs w) /\ tagged = tagged.
Proof.
  intros w evs.
  assert (Hin : Update "a1" (money 0 0 2 3) tagged ∈ effects_of (run evs w))
    by (vm_compute; constructor).
  split; [exact Hin|].
  exact (run_writes_are_tagged evs w "a1" (money 0 0 2 3) tagged Hin).
Defined.

(** Debounce: as long as no manual exchange has run, a notification leaves
    the actor with exactly one timeout at the host, due a full quiet period
    from now, however many were scheduled before. *)
Theorem notification_leaves_one_timeout acts show sys evs a :
  forallb (fun e => negb (is_manual e)) evs = true ->
  let w := world_of (run evs (initWorld acts show sys)) in
  outstanding a (world_of (scheduleConversion a w)) =
  [mkTimer (nextHandle w) (now w + 100)%nat a].
Proof.
  intros Hm w. apply outstanding_after_schedule.
  - apply wf_run, wf_init.
  - apply tight_run; [assumption | apply wf_init | apply tight_init].
Qed.

Lemma notification_leaves_one_timeout_witness :
  let evs := [Schedule "a1"; Elapse 20; Schedule "a1"; Elapse 20] in
  let w := world_of (run evs (initWorld ∅ true "gdsa")) in
  forallb (fun e => negb (is_manual e)) evs = true /\
  outstanding "a1" (world_of (scheduleConversion "a1" w)) = [mkTimer 2 140 "a1"].
Proof.
  intros evs w. split; [reflexivity|].
  apply (notification_leaves_one_timeout ∅ true "gdsa" evs "a1"). reflexivity.
Defined.

(** A timeout that a later notification has superseded never runs the
    apply-step: firing its handle changes nothing and logs nothing. *)
Theorem superseded_timeout_never_fires acts show sys evs a old :
  let w := world_of (run evs (initWorld acts show sys)) in
  updateTimers w !! a = Some old ->
  let w' := world_of (scheduleConversion a w) in
  fire old w' = (tt, w', []).
Proof.
  intros w Hl w'. apply fire_idle.
  destruct (List.find _ _) as [t|] eqn:Hf; [|reflexivity].
  exfalso. apply find_handle_Some in Hf as [Hin Hh].
  assert (Hwf : wf w) by apply wf_run, wf_init.
  destruct (reschedule_restarts a w old Hwf Hl) as (Hold & _).
  apply (Hold t); assumption.
Qed.

Lemma superseded_timeout_never_fires_witness :
  let w := world_of (run [Schedule "a1"; Elapse 200] (initWorld ∅ true "gdsa")) in
  let w' := world_of (scheduleConversion "a1" w) in
  updateTimers w !! "a1" = Some 0%nat /\ fire 0 w' = (tt, w', []).
Proof.
  intros w w'. split; [reflexivity|].
  apply (superseded_timeout_never_fires ∅ true "gdsa" [Schedule "a1"; Elapse 200] "a1" 0).
  reflexivity.
Defined.

(** Timers are per actor: scheduling one actor neither cancels nor adds a
    timeout of another, leaves the other's table entry alone, and touches
    no purse. *)
Theorem scheduling_is_per_actor acts show sys evs a b :
  b <> a ->
  let w := world_of (run evs (initWorld acts show sys)) in
  let w' := world_of (scheduleConversion a w) in
  outstanding b w' = outstanding b w /\
  updateTimers w' !! b = updateTimers w !! b /\
  actors w' = actors w.
Proof.
  intros Hne w w'. split; [|split].
  - apply outstanding_other_after_schedule; [apply wf_run, wf_init | assumption].
  - subst w'. rewrite scheduleConversion_world. unfold world_of; simpl.
    apply lookup_insert_ne. congruence.
  - subst w'. rewrite scheduleConversion_world. reflexivity.
Qed.

Lemma scheduling_is_per_actor_witness :
  let w := world_of (run [Schedule "a1"; Schedule "b2"] (initWorld ∅ true "gdsa")) in
  let w' := world_of (scheduleConversion "a1" w) in
  "b2" <> "a1" /\
  outstanding "b2" w' = [mkTimer 1 100 "b2"] /\
  updateTimers w' !! "b2" = Some 1%nat.
Proof.
  intros w w'.
  assert (Hne : "b2" <> "a1") by discriminate.
  destruct (scheduling_is_per_actor ∅ true "gdsa" [Schedule "a1"; Schedule "b2"]
              "a1" "b2" Hne) as (H1 & H2 & _).
  split; [exact Hne|]. split.
  - etransitivity; [exact H1 | reflexivity].
  - etransitivity; [exact H2 | reflexivity].
Defined.

(** Pending back to idle: as long as no manual exchange has run, when an
    actor's timeout fires the host holds no timeout for that actor any
    more, the table has no entry for it, and what is run is the automatic
    apply-step. *)
Theorem firing_returns_to_idle acts show sys evs t :
  forallb (fun e => negb (is_manual e)) evs = true ->
  let w := world_of (run evs (initWorld acts show sys)) in
  t ∈ pending w -> (due t <= now w)%nat ->
  outstanding (target t) (world_of (fire (handle t) w)) = [] /\
  updateTimers (world_of (fire (handle t) w)) !! target t = None /\
  fire (handle t) w =
    performConversion (target t) false
      (set_pending (List.filter (keep_other (handle t))) w).
Proof.
  intros Hm w Hin Hd.
  assert (Hwf : wf w) by apply wf_run, wf_init.
  assert (Htight : tight w)
    by (apply tight_run; [assumption | apply wf_init | apply tight_init]).
  split; [apply outstanding_after_fire; assumption|].
  split; [apply firing_removes_entry; assumption|].
  apply fire_due_full; [|assumption].
  apply find_handle; [apply Hwf | assumption].
Qed.

Lemma firing_returns_to_idle_witness :
  let evs := [Schedule "a1"; Elapse 50; Schedule "a1"; Elapse 100] in
  let w := world_of (run evs (initWorld ∅ true "gdsa")) in
  let t := mkTimer 1 150 "a1" in
  forallb (fun e => negb (is_manual e)) evs = true /\
  t ∈ pending w /\ (due t <= now w)%nat /\
  outstanding "a1" (world_of (fire 1 w)) = [].
Proof.
  intros evs w t.
  assert (Hm : forallb (fun e => negb (is_manual e)) evs = true) by reflexivity.
  assert (Hin : t ∈ pending w) by (vm_compute; constructor).
  assert (Hd : (due t <= now w)%nat) by (vm_compute; constructor).
  destruct (firing_returns_to_idle ∅ true "gdsa" evs t Hm Hin Hd) as (H1 & _).
  exact (conj Hm (conj Hin (conj Hd H1))).
Defined.

(** The hook schedules exactly the changes it is meant for: an unmarked
    change that touches the purse of a [PlayerCharakter] in the [gdsa]
    system.  Every other notification leaves the world as it is. *)
Theorem hook_schedules_iff n w :
  let wanted :=
    truthy (gdsa_autoconvert (n_options n)) = false /\
    n_actorType n = "PlayerCharakter" /\
    systemId w = "gdsa" /\
    n_hasMoney n = true in
  (wanted -> onUpdateActor n w = scheduleConversion (n_actorId n) w) /\
  (~ wanted -> onUpdateActor n w = (tt, w, [])).
Proof.
  intros wanted. subst wanted.
  unfold onUpdateActor, string_ne.
  unfold mbind, M_bind, bind, gets; simpl.
  destruct (truthy _); [split; [intros (H & _); discriminate | reflexivity]|].
  destruct (String.eqb_spec (n_actorType n) "PlayerCharakter") as [Ht|Ht]; simpl;
    [|split; [intros (_ & H & _); contradiction | reflexivity]].
  destruct (String.eqb_spec (systemId w) "gdsa") as [Hs|Hs]; simpl;
    [|split; [intros (_ & _ & H & _); contradiction | reflexivity]].
  destruct (n_hasMoney n); simpl;
    [|split; [intros (_ & _ & _ & H); discriminate | reflexivity]].
  split.
  - intros _. destruct (scheduleConversion _ _) as [[[] w'] fx]. reflexivity.
  - intros H. exfalso. apply H. auto.
Qed.

Lemma hook_schedules_iff_witness :
  let n := mkNotification "a1" "PlayerCharakter" true (mkOptions None) in
  let w := initWorld ∅ true "gdsa" in
  (truthy (gdsa_autoconvert (n_options n)) = false /\
   n_actorType n = "PlayerCharakter" /\ systemId w = "gdsa" /\ n_hasMoney n = true) /\
  onUpdateActor n w = scheduleConversion "a1" w.
Proof.
  intros n w.
  assert (Hw : truthy (gdsa_autoconvert (n_options n)) = false /\
   n_actorType n = "PlayerCharakter" /\ systemId w = "gdsa" /\ n_hasMoney n = true)
    by (repeat split; reflexivity).
  split; [exact Hw|].
  exact (proj1 (hook_schedules_iff n w) Hw).
Defined.

(** * Start-up *)

Lemma session_result (isGM : bool) (persisted : gmap (string * string) bool) :
  let show_it := isGM && negb (default false (persisted !! (ID, "welcomeShown"))) in
  session isGM persisted =
  Some (mkSettings
          (<[(ID, "welcomeShown") := false]>
             (<[(ID, "showNotifications") := true]> ∅))
          (if show_it then <[(ID, "welcomeShown") := true]> persisted else persisted),
        ConsoleLog "Geano's GDSA Exchange Office | Initializing" ::
        (if show_it then [WelcomeInfo welcomeText] else [])).
Proof.
  unfold session, onInit, onReady, settings_get, settings_set, settings_register.
  cbn [defaults values].
  destruct isGM; cbn [andb]; [|reflexivity].
  rewrite lookup_insert_eq.
  destruct (persisted !! (ID, "welcomeShown")) as [[]|]; cbn [default negb];
    reflexivity.
Qed.

(** A session never fails on its settings: both keys are registered at
    [init] before [ready] reads or sets one.  The welcome is shown exactly
    to a game master while no earlier session has recorded it, and
    recording it is the only change to the persisted values. *)
Theorem session_welcomes_iff (isGM : bool) (persisted : gmap (string * string) bool) :
  exists s fx,
    session isGM persisted = Some (s, fx) /\
    welcomed fx = isGM && negb (default false (persisted !! (ID, "welcomeShown"))) /\
    values s = (if welcomed fx then <[(ID, "welcomeShown") := true]> persisted
                else persisted).
Proof.
  eexists _, _. split; [apply session_result|].
  destruct (isGM && _); split; reflexivity.
Qed.

(** The welcome is shown at most once: after a session that showed it, no
    later session shows it again, game master or not, and the later
    session leaves the persisted values as they are. *)
Theorem welcome_shown_once (isGM isGM' : bool) (persisted : gmap (string * string) bool) s fx :
  session isGM persisted = Some (s, fx) ->
  welcomed fx = true ->
  exists s' fx',
    session isGM' (values s) = Some (s', fx') /\
    welcomed fx' = false /\ values s' = values s.
Proof.
  rewrite session_result. intros [= <- <-] Hw.
  eexists _, _. split; [apply session_result|].
  cbn [values]. cbn [welcomed existsb orb] in Hw.
  destruct (isGM && _); [|discriminate].
  cbn [values]. rewrite lookup_insert_eq. cbn [default negb].
  rewrite andb_false_r. split; reflexivity.
Qed.

Lemma welcome_shown_once_witness :
  exists s fx,
    session true ∅ = Some (s, fx) /\ welcomed fx = true /\
    exists s' fx',
      session true (values s) = Some (s', fx') /\
      welcomed fx' = false /\ values s' = values s.
Proof.
  eexists _, _. split; [apply session_result|]. split; [reflexivity|].
  eapply (welcome_shown_once true true ∅); [apply session_result | reflexivity].
Defined.

(** * A whole debounce cycle *)

Lemma settled_purse m manual :
  let m' := if toBaseUnit m <? 0 then zeroMoney
            else if manual || needsOptimization m then optimizeMoney m else m in
  needsOptimization m' = false /\ toBaseUnit m' = Z.max 0 (toBaseUnit m).
Proof.
  simpl. destruct (Z.ltb_spec (toBaseUnit m) 0) as [Hneg|Hpos].
  - split; [reflexivity|]. vm_compute toBaseUnit at 1. lia.
  - destruct (manual || needsOptimization m) eqn:Hgo.
    + split; [apply canonical_of_nonneg; assumption|].
      rewrite optimizeMoney_value by assumption. lia.
    + apply orb_false_iff in Hgo as [_ Hneeds]. split; [assumption | lia].
Qed.

(** * The interpreter's arithmetic and the exact one *)

Section Rounding.

Import JS.

Lemma round_half_even_cases num den :
  0 < den ->
  let f := num / den in let r := num mod den in
  (2 * r < den /\ round_half_even num den = f) \/
  (den <= 2 * r /\ round_half_even num den = f + 1) \/
  (2 * r = den /\ round_half_even num den = f).
Proof.
  intros Hd f r. unfold round_half_even. fold f. fold r.
  destruct (Z.ltb_spec (2 * r) den); [left; auto|].
  destruct (Z.ltb_spec den (2 * r)); [right; left; split; [lia|reflexivity]|].
  destruct (Z.even f);
    [right; right; split; [lia|reflexivity] | right; left; split; [lia|reflexivity]].
Qed.

Lemma round_half_even_ge num den :
  0 < den -> num / den <= round_half_even num den.
Proof.
  intros Hd.
  destruct (round_half_even_cases num den Hd) as [[_ ->]|[[_ ->]|[_ ->]]]; lia.
Qed.

(** The heart of the matter: a quotient [n / b] scaled by [P = 2^s] and
    rounded to an integer stays within the unit interval of [n / b] as long
    as [b < 2 P], that is as long as half a unit in the last place is
    smaller than [1 / b]. *)
Lemma scaled_quotient_bounds n b P :
  0 <= n -> 0 < b -> 0 < P -> b < 2 * P ->
  let m := round_half_even (n * P) b in
  (n / b) * P <= m < (n / b + 1) * P /\
  (n mod b <> 0 -> (n / b) * P < m) /\
  (n mod b = 0 -> m = (n / b) * P).
Proof.
  intros Hn Hb HP HbP m.
  pose proof (Z.div_mod n b ltac:(lia)) as En.
  pose proof (Z.mod_pos_bound n b Hb) as Hr.
  pose proof (Z.div_mod (n * P) b ltac:(lia)) as EN.
  pose proof (Z.mod_pos_bound (n * P) b Hb) as HR.
  set (f := n / b) in *. set (r := n mod b) in *.
  destruct (round_half_even_cases (n * P) b Hb) as [[H1 H2]|[[H1 H2]|[H1 H2]]];
    fold m in H2; rewrite H2; clear H2;
    set (F := n * P / b) in *; set (R := (n * P) mod b) in *.
  - assert (b * (F - f * P) = r * P - R) by nia.
    assert (0 <= F - f * P) by nia.
    assert (F - f * P < P) by nia.
    split; [lia|]. split.
    + intros Hr0.
      assert (1 <= r) by lia. assert (P <= r * P) by nia.
      assert (0 < b * (F - f * P)) by lia. nia.
    + intros Hr0. nia.
  - assert (b * (F - f * P) = r * P - R) by nia.
    assert (0 <= F - f * P) by nia.
    assert (2 * b * (F + 1 - f * P) <= 2 * r * P + b) by nia.
    assert (2 * b * (F + 1 - f * P) < 2 * b * P) by nia.
    split; [nia|]. split; [intros _; lia|].
    intros Hr0. exfalso. nia.
  - assert (b * (F - f * P) = r * P - R) by nia.
    assert (0 <= F - f * P) by nia.
    assert (F - f * P < P) by nia.
    split; [lia|]. split.
    + intros Hr0.
      assert (1 <= r) by lia. assert (P <= r * P) by nia.
      assert (0 < b * (F - f * P)) by lia. nia.
    + intros Hr0. nia.
Qed.

Lemma log2_ratio_le n b :
  0 < n -> 0 < b -> 0 <= log2_ratio n b -> b * 2 ^ log2_ratio n b <= n.
Proof.
  intros Hn Hb. unfold log2_ratio.
  set (d := Z.log2 n - Z.log2 b).
  destruct (Z.leb_spec 0 d) as [Hd|Hd].
  - destruct (Z.leb_spec (b * 2 ^ d) n) as [Hle|Hgt]; [auto|].
    intros Hl.
    pose proof (Z.log2_spec n Hn) as [Hn1 _].
    pose proof (Z.log2_spec b Hb) as [_ Hb2].
    pose proof (Z.log2_nonneg b) as Hlb.
    assert (E : 2 ^ Z.log2 n = 2 ^ (Z.log2 b + 1) * 2 ^ (d - 1)).
    { rewrite <- Z.pow_add_r by lia. f_equal. unfold d. lia. }
    assert (0 < 2 ^ (d - 1)) by (apply Z.pow_pos_nonneg; lia).
    nia.
  - destruct (b <=? n * 2 ^ (- d)); intros; lia.
Qed.

(** On safe integers [Math.floor (a / b)] is the floor quotient, for each
    of the three rates and for either sign. *)
Lemma floor_div_exact a b :
  b = 10 \/ b = 100 \/ b = 1000 ->
  Z.abs a < 2 ^ 53 ->
  floor_div a b = a / b.
Proof.
  intros Hb Ha. unfold floor_div.
  destruct (Z.eqb_spec a 0) as [->|Hne]; [symmetry; apply Z.div_0_l; lia|].
  assert (Hb' : 10 <= b <= 1000) by lia.
  set (n := Z.abs a) in *.
  assert (Hn : 0 < n) by (unfold n; lia).
  set (l := log2_ratio n b).
  assert (Hs : l - 52 < 0 /\ b < 2 * 2 ^ (52 - l)).
  { destruct (Z.lt_ge_cases l 0) as [Hl|Hl].
    - split; [lia|].
      assert (2 ^ 52 <= 2 ^ (52 - l)) by (apply Z.pow_le_mono_r; lia).
      assert (2 ^ 52 = 4503599627370496) by reflexivity. lia.
    - pose proof (log2_ratio_le n b Hn ltac:(lia) Hl) as Hle. fold l in Hle.
      assert (Hp : 0 < 2 ^ l) by (apply Z.pow_pos_nonneg; lia).
      assert (Hl53 : l < 53).
      { apply (Z.pow_lt_mono_r_iff 2); [lia|lia|]. nia. }
      assert (E : 2 ^ 53 = 2 * 2 ^ (52 - l) * 2 ^ l).
      { replace 53 with (1 + (52 - l) + l) by lia.
        rewrite !Z.pow_add_r by lia. reflexivity. }
      assert (Hb2 : b < 2 * 2 ^ (52 - l)) by nia.
      split; [|exact Hb2].
      destruct (Z.lt_ge_cases l 52) as [|Hge]; [lia|].
      replace (52 - l) with 0 in Hb2 by lia. simpl in Hb2. lia. }
  destruct Hs as [He HbP].
  destruct (Z.leb_spec 0 (l - 52)) as [|_]; [lia|].
  replace (- (l - 52)) with (52 - l) by lia.
  set (P := 2 ^ (52 - l)) in *.
  assert (HP : 0 < P) by (apply Z.pow_pos_nonneg; lia).
  destruct (scaled_quotient_bounds n b P ltac:(lia) ltac:(lia) HP HbP)
    as (Hbd & Hstrict & Hex).
  set (m := round_half_even (n * P) b) in *.
  pose proof (Z.div_mod n b ltac:(lia)) as En.
  pose proof (Z.mod_pos_bound n b ltac:(lia)) as Hr.
  destruct (Z.lt_ge_cases 0 a) as [Hpos|Hneg].
  - replace (Z.sgn a) with 1 by (symmetry; apply Z.sgn_pos; lia).
    replace a with n by (unfold n; lia).
    rewrite Z.mul_1_l. symmetry.
    apply (Z.div_unique m P (n / b) (m - P * (n / b))); lia.
  - replace (Z.sgn a) with (-1) by (symmetry; apply Z.sgn_neg; lia).
    replace a with (- n) by (unfold n; lia).
    destruct (Z.eq_dec (n mod b) 0) as [Hr0|Hr0].
    + rewrite (Hex Hr0).
      transitivity (- (n / b)).
      * symmetry. apply (Z.div_unique _ P _ 0); lia.
      * apply (Z.div_unique _ b _ 0); lia.
    + specialize (Hstrict Hr0).
      transitivity (- (n / b) - 1).
      * symmetry. apply (Z.div_unique _ P _ ((n / b + 1) * P - m)); lia.
      * apply (Z.div_unique _ b _ (b - n mod b)); lia.
Qed.

Lemma round53_exact x : Z.abs x <= 2 ^ 53 -> round53 x = x.
Proof.
  intros H. unfold round53. apply Z.leb_le in H. rewrite H. reflexivity.
Qed.

(** Rounding keeps the sign. *)
Lemma round53_neg x : x < 0 -> round53 x < 0.
Proof.
  intros Hx. unfold round53.
  destruct (Z.leb_spec (Z.abs x) (2 ^ 53)) as [|Hbig]; [assumption|].
  set (a := Z.abs x) in *.
  assert (Ha : 0 < a) by (unfold a; lia).
  pose proof (Z.log2_spec a Ha) as [Hlo _].
  assert (Hl : 53 <= Z.log2 a).
  { apply Z.log2_le_pow2; [assumption|lia]. }
  set (e := Z.log2 a - 52) in *.
  assert (Hp : 0 < 2 ^ e) by (apply Z.pow_pos_nonneg; lia).
  assert (Hq : 1 <= a / 2 ^ e).
  { apply Z.div_le_lower_bound; [assumption|].
    rewrite Z.mul_1_r. transitivity (2 ^ Z.log2 a); [|assumption].
    apply Z.pow_le_mono_r; unfold e; lia. }
  pose proof (round_half_even_ge a (2 ^ e) Hp) as Hm.
  replace (Z.sgn x) with (-1) by (symmetry; apply Z.sgn_neg; assumption).
  nia.
Qed.

End Rounding.

Section Agreement.

Implicit Types (m : Money) (n : Z).

Lemma round53_nonpos x : x <= 0 -> JS.round53 x <= 0.
Proof.
  intros Hx. destruct (Z.eq_dec x 0) as [->|Hne]; [reflexivity|].
  pose proof (round53_neg x ltac:(lia)). lia.
Qed.

Lemma toBaseUnit_safe m : JS.safe m -> JS.toBaseUnit m = toBaseUnit m.
Proof.
  unfold JS.safe, JS.toBaseUnit, toBaseUnit, JS.add, JS.mul,
    CONVERSION_RATES.gold, CONVERSION_RATES.silver,
    CONVERSION_RATES.copper, CONVERSION_RATES.nickel.
  set (g := orZero (gold m)). set (s := orZero (silver m)).
  set (c := orZero (copper m)). set (k := orZero (nickel m)).
  intros Hs.
  rewrite (round53_exact (g * 1000)) by lia.
  rewrite (round53_exact (s * 100)) by lia.
  rewrite (round53_exact (c * 10)) by lia.
  rewrite (round53_exact (k * 1)) by lia.
  rewrite (round53_exact (g * 1000 + s * 100)) by lia.
  rewrite (round53_exact (g * 1000 + s * 100 + c * 10)) by lia.
  apply round53_exact. lia.
Qed.

Lemma safe_bounds_total m : JS.safe m -> Z.abs (toBaseUnit m) < 2 ^ 53.
Proof.
  unfold JS.safe, toBaseUnit, CONVERSION_RATES.gold, CONVERSION_RATES.silver,
    CONVERSION_RATES.copper, CONVERSION_RATES.nickel. lia.
Qed.

Lemma fromBaseUnit_safe n : Z.abs n < 2 ^ 53 -> JS.fromBaseUnit n = fromBaseUnit n.
Proof.
  intros Hn. unfold JS.fromBaseUnit, fromBaseUnit,
    CONVERSION_RATES.gold, CONVERSION_RATES.silver, CONVERSION_RATES.copper.
  pose proof (Z.rem_bound_abs n 1000 ltac:(lia)) as H1.
  pose proof (Z.rem_bound_abs (Z.rem n 1000) 100 ltac:(lia)) as H2.
  rewrite (floor_div_exact n 1000) by (auto || lia).
  rewrite (floor_div_exact (Z.rem n 1000) 100) by (auto || lia).
  rewrite (floor_div_exact (Z.rem (Z.rem n 1000) 100) 10) by (auto || lia).
  reflexivity.
Qed.

Lemma optimizeMoney_safe m : JS.safe m -> JS.optimizeMoney m = optimizeMoney m.
Proof.
  intros Hs. unfold JS.optimizeMoney, optimizeMoney.
  rewrite toBaseUnit_safe by assumption.
  apply fromBaseUnit_safe, safe_bounds_total. assumption.
Qed.

Lemma safe_fromBaseUnit n : 0 <= n < 2 ^ 53 -> JS.safe (fromBaseUnit n).
Proof.
  intros Hn. rewrite fromBaseUnit_nonneg by lia.
  unfold JS.safe; simpl.
  Z.to_euclidean_division_equations; lia.
Qed.

Lemma safe_optimizeMoney m :
  JS.safe m -> 0 <= toBaseUnit m -> JS.safe (optimizeMoney m).
Proof.
  intros Hs Hpos. apply safe_fromBaseUnit.
  pose proof (safe_bounds_total m Hs). lia.
Qed.

(** Below zero the optimised record is worth less than nothing for the
    interpreter too: the test [total < 0] takes the same branch. *)
Lemma negative_total_on_doubles n :
  n < 0 -> JS.toBaseUnit (fromBaseUnit n) < 0.
Proof.
  intros Hn.
  destruct (fromBaseUnit_negative_digits n Hn)
    as (g & s & c & k & -> & Hg & Hs & Hc & Hk).
  unfold JS.toBaseUnit, JS.add, JS.mul; simpl.
  unfold CONVERSION_RATES.gold, CONVERSION_RATES.silver,
    CONVERSION_RATES.copper, CONVERSION_RATES.nickel.
  pose proof (round53_neg (g * 1000) ltac:(lia)) as H1.
  pose proof (round53_nonpos (s * 100) ltac:(lia)) as H2.
  pose proof (round53_nonpos (c * 10) ltac:(lia)) as H3.
  pose proof (round53_nonpos (k * 1) ltac:(lia)) as H4.
  pose proof (round53_neg (JS.round53 (g * 1000) + JS.round53 (s * 100))
                ltac:(lia)) as H5.
  pose proof (round53_neg (JS.round53 (JS.round53 (g * 1000) + JS.round53 (s * 100))
                           + JS.round53 (c * 10)) ltac:(lia)) as H6.
  apply round53_neg. lia.
Qed.

Lemma performConversionWith_ext opt tot opt' tot' a manual w :
  (forall actor, actors w !! a = Some actor ->
     opt (actor_money actor) = opt' (actor_money actor) /\
     (tot (opt (actor_money actor)) <? 0) = (tot' (opt' (actor_money actor)) <? 0)) ->
  performConversionWith opt tot a manual w = performConversionWith opt' tot' a manual w.
Proof.
  intros H. destruct w as [acts show sys tbl q nh t]; simpl in H.
  unfold performConversionWith. unfold_M; simpl.
  destruct (acts !! a) as [actor|]; [|reflexivity].
  destruct (H actor eq_refl) as [E1 E2]. simpl.
  rewrite E2, E1. reflexivity.
Qed.

(** On a safe purse, and when the actor is missing, the apply-step of the
    interpreter is the apply-step in exact arithmetic: same world, same
    effects. *)
Lemma performConversion_safe a manual w :
  (forall actor, actors w !! a = Some actor -> JS.safe (actor_money actor)) ->
  JS.performConversion a manual w = performConversion a manual w.
Proof.
  intros Hsafe.
  change (performConversionWith JS.optimizeMoney JS.toBaseUnit a manual w
          = performConversionWith optimizeMoney toBaseUnit a manual w).
  apply performConversionWith_ext. intros actor Hact.
  specialize (Hsafe actor Hact).
  rewrite optimizeMoney_safe by assumption. split; [reflexivity|].
  destruct (Z.lt_ge_cases (toBaseUnit (actor_money actor)) 0) as [Hneg|Hpos].
  - pose proof (negative_total_on_doubles _ Hneg) as H1.
    pose proof (proj1 (negative_test_sign _) Hneg) as H2.
    unfold optimizeMoney in *.
    apply Z.ltb_lt in H1, H2. rewrite H1, H2. reflexivity.
  - rewrite toBaseUnit_safe by (apply safe_optimizeMoney; assumption).
    reflexivity.
Qed.

Lemma safe_settled m manual :
  JS.safe m ->
  JS.safe (if toBaseUnit m <? 0 then zeroMoney
           else if manual || needsOptimization m then optimizeMoney m else m).
Proof.
  intros Hs. destruct (Z.ltb_spec (toBaseUnit m) 0) as [Hneg|Hpos].
  - unfold JS.safe; simpl. lia.
  - destruct (manual || needsOptimization m); [|assumption].
    apply safe_optimizeMoney; assumption.
Qed.

End Agreement.

(** * Properties that need exact sums, on the interpreter's arithmetic *)

(** C6, at a purse of about [2^54] nickels, every field a safe integer: the
    sum in [toBaseUnit] is rounded, optimising once gives a record that
    optimising again changes.  The total is not negative. *)
Lemma optimizeMoney_not_idempotent_on_doubles :
  let m := money 18014398509481 9 9 3 in
  0 <= JS.toBaseUnit m /\
  JS.toBaseUnit m = 18014398509481996 /\
  JS.optimizeMoney m = money 18014398509481 9 9 6 /\
  JS.optimizeMoney (JS.optimizeMoney m) = money 18014398509482 0 0 0 /\
  JS.optimizeMoney (JS.optimizeMoney m) <> JS.optimizeMoney m.
Proof.
  vm_compute. repeat split; try discriminate.
Qed.

(** C6, amended: on a purse whose terms add up, in magnitude, to a safe
    integer and whose base-unit total is not negative, optimising twice
    gives what optimising once gives, in the arithmetic of the
    interpreter. *)
Theorem optimizeMoney_idempotent_safe m :
  JS.safe m ->
  0 <= JS.toBaseUnit m ->
  JS.optimizeMoney (JS.optimizeMoney m) = JS.optimizeMoney m.
Proof.
  intros Hs Hpos.
  rewrite toBaseUnit_safe in Hpos by assumption.
  rewrite (optimizeMoney_safe m Hs).
  rewrite optimizeMoney_safe by (apply safe_optimizeMoney; assumption).
  apply optimizeMoney_idempotent. assumption.
Qed.

Lemma optimizeMoney_idempotent_safe_witness :
  let m := money 9007199254730 (-12) 0 991 in
  JS.safe m /\ 0 <= JS.toBaseUnit m /\
  JS.optimizeMoney (JS.optimizeMoney m) = JS.optimizeMoney m.
Proof.
  intros m.
  assert (Hs : JS.safe m) by (vm_compute; reflexivity).
  assert (Hp : 0 <= JS.toBaseUnit m) by (vm_compute; discriminate).
  exact (conj Hs (conj Hp (optimizeMoney_idempotent_safe m Hs Hp))).
Defined.

(** C10, at a canonical purse worth [2^53 + 1]: [needsOptimization] is
    false, the sum in [toBaseUnit] rounds to [2^53], and [optimizeMoney]
    returns a record with one nickel less. *)
Lemma optimizeMoney_moves_canonical_record :
  let m := money 9007199254740 9 9 3 in
  needsOptimization m = false /\
  JS.toBaseUnit m = 9007199254740992 /\
  JS.optimizeMoney m = money 9007199254740 9 9 2 /\
  JS.optimizeMoney m <> m.
Proof.
  vm_compute. repeat split; discriminate.
Qed.

(** C10, amended: a record with all four fields present that does not
    need optimising and is worth at most [2^53 - 1] is left as it is by
    [optimizeMoney], in the arithmetic of the interpreter. *)
Theorem optimizeMoney_fixpoint_safe g s c k :
  JS.safe (money g s c k) ->
  needsOptimization (money g s c k) = false ->
  JS.optimizeMoney (money g s c k) = money g s c k.
Proof.
  intros Hs Hc. rewrite optimizeMoney_safe by assumption.
  apply optimizeMoney_fixpoint. assumption.
Qed.

Lemma optimizeMoney_fixpoint_safe_witness :
  JS.safe (money 9007199254740 9 9 1) /\
  needsOptimization (money 9007199254740 9 9 1) = false /\
  JS.optimizeMoney (money 9007199254740 9 9 1) = money 9007199254740 9 9 1.
Proof.
  assert (Hs : JS.safe (money 9007199254740 9 9 1)) by (vm_compute; reflexivity).
  assert (Hc : needsOptimization (money 9007199254740 9 9 1) = false) by reflexivity.
  exact (conj Hs (conj Hc (optimizeMoney_fixpoint_safe _ _ _ _ Hs Hc))).
Defined.

(** Beyond the safe range two canonical records can be worth the same to
    the interpreter. *)
Example canonical_records_collide_on_doubles :
  needsOptimization (money 9007199254740 9 9 3) = false /\
  needsOptimization (money 9007199254740 9 9 2) = false /\
  JS.toBaseUnit (money 9007199254740 9 9 3) = JS.toBaseUnit (money 9007199254740 9 9 2).
Proof. vm_compute. repeat split. Qed.

(** The canonical form is unique among safe purses: two records with
    every field present that need no optimisation, are worth at most
    [2^53 - 1] each and have the same [toBaseUnit] in the interpreter are
    the same record. *)
Theorem canonical_record_unique_safe g s c k g' s' c' k' :
  JS.safe (money g s c k) -> JS.safe (money g' s' c' k') ->
  needsOptimization (money g s c k) = false ->
  needsOptimization (money g' s' c' k') = false ->
  JS.toBaseUnit (money g s c k) = JS.toBaseUnit (money g' s' c' k') ->
  money g s c k = money g' s' c' k'.
Proof.
  intros Hs Hs' H1 H2 Heq.
  rewrite !toBaseUnit_safe in Heq by assumption.
  apply canonical_record_unique; assumption.
Qed.

Lemma canonical_record_unique_safe_witness :
  JS.safe (money 2 2 0 0) /\
  needsOptimization (money 2 2 0 0) = false /\
  JS.toBaseUnit (money 2 2 0 0) = JS.toBaseUnit (optimizeMoney (money 1 12 0 0)) /\
  money 2 2 0 0 = money 2 2 0 0.
Proof.
  assert (Hs : JS.safe (money 2 2 0 0)) by (vm_compute; reflexivity).
  assert (Hc : needsOptimization (money 2 2 0 0) = false) by reflexivity.
  assert (He : JS.toBaseUnit (money 2 2 0 0) = JS.toBaseUnit (money 2 2 0 0))
    by reflexivity.
  exact (conj Hs (conj Hc (conj He
           (canonical_record_unique_safe 2 2 0 0 2 2 0 0 Hs Hs Hc Hc He)))).
Defined.

(** Optimising keeps the value of a safe purse that is not in debt,
    whatever fields it lacks, in the arithmetic of the interpreter. *)
Theorem optimizeMoney_preserves_value_safe m :
  JS.safe m ->
  0 <= JS.toBaseUnit m ->
  JS.toBaseUnit (JS.optimizeMoney m) = JS.toBaseUnit m.
Proof.
  intros Hs Hpos.
  rewrite toBaseUnit_safe in Hpos by assumption.
  rewrite (optimizeMoney_safe m Hs).
  rewrite toBaseUnit_safe by (apply safe_optimizeMoney; assumption).
  rewrite (toBaseUnit_safe m Hs).
  apply optimizeMoney_value. assumption.
Qed.

Lemma optimizeMoney_preserves_value_safe_witness :
  let m := mkMoney None (Some 12) None (Some 34) in
  JS.safe m /\ 0 <= JS.toBaseUnit m /\
  JS.toBaseUnit (JS.optimizeMoney m) = JS.toBaseUnit m.
Proof.
  intros m.
  assert (Hs : JS.safe m) by (vm_compute; reflexivity).
  assert (Hp : 0 <= JS.toBaseUnit m) by (vm_compute; discriminate).
  exact (conj Hs (conj Hp (optimizeMoney_preserves_value_safe m Hs Hp))).
Defined.

(** Beyond the safe range the apply-step can create money: a purse worth
    [18014398509482003] nickels is left, after an automatic run, with one
    worth a nickel more. *)
Example apply_step_creates_a_nickel_on_doubles :
  let actor := mkActor "Alrik" "PlayerCharakter" (money 18014398509481 9 9 13) in
  let w := initWorld {[ "a1" := actor ]} true "gdsa" in
  stored "a1" (world_of (JS.performConversion "a1" false w))
    = Some (money 18014398509482 0 0 4).
Proof. vm_compute. reflexivity. Qed.

(** The apply-step clamps at zero and otherwise keeps the value: a safe
    purse of an existing actor is afterwards worth what it was worth, or
    nothing if it was in debt, for the automatic and for the manual run,
    whatever the notification setting, in the arithmetic of the
    interpreter. *)
Theorem apply_step_clamps_value_safe a manual w actor :
  actors w !! a = Some actor ->
  JS.safe (actor_money actor) ->
  exists m',
    stored a (world_of (JS.performConversion a manual w)) = Some m' /\
    JS.toBaseUnit m' = Z.max 0 (JS.toBaseUnit (actor_money actor)).
Proof.
  intros Hact Hs.
  rewrite performConversion_safe
    by (intros actor' Hact'; rewrite Hact in Hact'; injection Hact' as <-; exact Hs).
  eexists. split; [apply apply_stored; eassumption|].
  rewrite toBaseUnit_safe by (apply safe_settled; assumption).
  rewrite (toBaseUnit_safe _ Hs).
  apply (settled_purse (actor_money actor) manual).
Qed.

Lemma apply_step_clamps_value_safe_witness :
  let actor := mkActor "Alrik" "PlayerCharakter" (money 1 12 0 (-3)) in
  let w := initWorld {[ "a1" := actor ]} true "gdsa" in
  actors w !! "a1" = Some actor /\
  JS.safe (actor_money actor) /\
  exists m',
    stored "a1" (world_of (JS.performConversion "a1" false w)) = Some m' /\
    JS.toBaseUnit m' = Z.max 0 (JS.toBaseUnit (actor_money actor)).
Proof.
  intros actor w.
  assert (Hact : actors w !! "a1" = Some actor) by reflexivity.
  assert (Hs : JS.safe (actor_money actor)) by (vm_compute; reflexivity).
  exact (conj Hact (conj Hs (apply_step_clamps_value_safe "a1" false w actor Hact Hs))).
Defined.

(** From a notification to a settled purse: in any state the module can
    reach, if the actor exists and its purse is safe, then scheduling it,
    letting the quiet period pass and firing the timeout that was
    installed leaves the actor with a purse that needs no optimisation,
    worth what it was worth or nothing if it was in debt, and with no
    entry in the table.  (On a safe purse the apply-step that the timeout
    runs is the interpreter's, [performConversion_safe].) *)
Theorem debounce_cycle_settles_purse acts show sys evs a actor :
  let w := world_of (run evs (initWorld acts show sys)) in
  actors w !! a = Some actor ->
  JS.safe (actor_money actor) ->
  let w' := world_of (run [Schedule a; Elapse 100; Fire (nextHandle w)] w) in
  exists m',
    stored a w' = Some m' /\
    needsOptimization m' = false /\
    JS.toBaseUnit m' = Z.max 0 (JS.toBaseUnit (actor_money actor)) /\
    updateTimers w' !! a = None.
Proof.
  intros w Hact Hsafe w'. subst w'.
  assert (Hwf : wf w) by apply wf_run, wf_init.
  rewrite !run_cons. cbn [run step].
  pose proof (wf_scheduleConversion a w Hwf) as Hwf1.
  remember (world_of (scheduleConversion a w)) as w1 eqn:E1.
  assert (Hq : mkTimer (nextHandle w) (now w + 100)%nat a ∈ pending w1).
  { subst w1. rewrite scheduleConversion_world. unfold world_of; simpl.
    apply elem_of_app. right. constructor. }
  assert (Hnow : now w1 = now w /\ actors w1 = actors w).
  { subst w1. rewrite scheduleConversion_world. split; reflexivity. }
  destruct Hnow as [Hnow Hacts].
  remember (world_of (elapse 100 w1)) as w2 eqn:E2.
  assert (H2 : pending w2 = pending w1 /\ now w2 = (now w1 + 100)%nat /\
               actors w2 = actors w1).
  { subst w2. unfold elapse, modify, world_of; simpl. auto. }
  destruct H2 as (Hp2 & Hn2 & Ha2).
  set (t := mkTimer (nextHandle w) (now w + 100)%nat a) in *.
  assert (Hf : List.find (fun t' => (handle t' =? handle t)%nat) (pending w2) = Some t).
  { apply find_handle; rewrite Hp2; [apply Hwf1 | assumption]. }
  assert (Hd : (due t <= now w2)%nat) by (simpl; lia).
  change (nextHandle w) with (handle t).
  unfold mret, M_ret. change (world_of (ret () ?x)) with x.
  rewrite (fire_due (handle t) w2 t Hf Hd).
  set (w3 := set_pending (List.filter (keep_other (handle t))) w2).
  assert (Hact3 : actors w3 !! target t = Some actor).
  { unfold w3; simpl. rewrite Ha2, Hacts. exact Hact. }
  eexists. split; [apply (apply_stored (target t) false w3 actor Hact3)|].
  destruct (settled_purse (actor_money actor) false) as [Hc Hv].
  split; [exact Hc|]. split.
  - rewrite toBaseUnit_safe by (apply safe_settled; assumption).
    rewrite (toBaseUnit_safe _ Hsafe). exact Hv.
  - destruct (performConversion_scheduler (target t) false w3) as (Ht & _).
    cbv zeta in Ht. rewrite Ht. apply lookup_delete_eq.
Qed.

Lemma debounce_cycle_settles_purse_witness :
  let actor := mkActor "Alrik" "PlayerCharakter" (money 1 12 0 0) in
  let w := world_of (run [] (initWorld {[ "a1" := actor ]} true "gdsa")) in
  let w' := world_of (run [Schedule "a1"; Elapse 100; Fire (nextHandle w)] w) in
  actors w !! "a1" = Some actor /\
  JS.safe (actor_money actor) /\
  exists m',
    stored "a1" w' = Some m' /\
    needsOptimization m' = false /\
    JS.toBaseUnit m' = Z.max 0 (JS.toBaseUnit (actor_money actor)) /\
    updateTimers w' !! "a1" = None.
Proof.
  intros actor w w'.
  assert (Hact : actors w !! "a1" = Some actor) by reflexivity.
  assert (Hs : JS.safe (actor_money actor)) by (vm_compute; reflexivity).
  exact (conj Hact (conj Hs
    (debounce_cycle_settles_purse {[ "a1" := actor ]} true "gdsa" [] "a1" actor Hact Hs))).
Defined.

(** * The manual exchange and the scheduler *)

(** C8, after a manual exchange: [performConversion] deletes the actor's
    table entry without [clearTimeout], so the timeout scheduled before the
    exchange is still pending at the host while the table has forgotten it.
    The next notification finds no entry, cancels nothing and installs a
    second timeout: two callbacks for one actor are outstanding, and both
    come due.  When the first fires it deletes the entry of the second,
    which stays pending all the same. *)
Theorem manual_exchange_then_two_callbacks :
  let w0 := initWorld {[ "a1" := mkActor "Alrik" "PlayerCharakter" (money 0 0 0 23) ]}
                      true "gdsa" in
  let w1 := world_of (run [Schedule "a1"; Manual "a1"] w0) in
  let w2 := world_of (scheduleConversion "a1" w1) in
  let w3 := world_of (run [Elapse 100; Fire 0] w2) in
  (outstanding "a1" w1 = [mkTimer 0 100 "a1"] /\ updateTimers w1 !! "a1" = None) /\
  (outstanding "a1" w2 = [mkTimer 0 100 "a1"; mkTimer 1 100 "a1"] /\
   updateTimers w2 !! "a1" = Some 1%nat) /\
  (outstanding "a1" w3 = [mkTimer 1 100 "a1"] /\ updateTimers w3 !! "a1" = None) /\
  fire 1 w3 = performConversion "a1" false
                (set_pending (List.filter (keep_other 1)) w3).
Proof.
  cbv zeta. split; [split; reflexivity|]. split; [split; reflexivity|].
  split; [split; reflexivity|].
  apply (fire_due_full 1 _ (mkTimer 1 100 "a1")); [reflexivity|].
  vm_compute. repeat constructor.
Qed.
